(** * The broadcast queue scheduler of [src/App.tsx]

    A shallow embedding of the queue / playback logic of the React component
    [App] (file [src/App.tsx]), of the drag-and-drop reorder of
    [src/components/AudioQueue.tsx] and of the types of [types.ts].

    Conventions of the embedding.

    - A JavaScript array is a [list]; [find]/[findIndex] are stdpp's
      [list_find] (which returns the index together with the element),
      [filter] is stdpp's [filter] over a decidable predicate, an assignment
      [arr[i].status = s] is [alter (withStatus s) i arr].  Every object of a
      queue is created by its own object literal or spread, so no object occurs
      twice in a queue and the index-wise update is the in-place mutation.
    - React state ([useState]) and refs ([useRef]) are the fields of the
      record [App]; a handler is a function [App -> App] that runs to
      completion (JavaScript is single threaded, and React applies queued
      updater functions one after the other on the latest state).
    - A handler that reads the [settings] constant of the render in which it
      was created takes that snapshot as an explicit first argument
      [settings]: [setSettings] replaces the state for the next render, it
      does not change the constant the running closure has captured.
    - An [async] function is split at its [await]: the part before it and the
      part that resumes with the outcome of the [fetch]. *)

From stdpp Require Import base decidable option list strings numbers pretty.
From stdpp Require Import gmap.

Local Open Scope string_scope.
Local Open Scope nat_scope.
Local Open Scope list_scope.

(** ** Data model ([types.ts]) *)

Inductive AudioSource := AI | MANUAL.

Inductive AudioStatus := PLAYING | QUEUED | COMPLETED.

#[global] Instance AudioSource_eq_dec : EqDecision AudioSource.
Proof. solve_decision. Defined.

#[global] Instance AudioStatus_eq_dec : EqDecision AudioStatus.
Proof. solve_decision. Defined.

(** [timestamp] is the millisecond clock value of [new Date()]; [description]
    and [audioUrl] are optional in the interface but every item built by
    [App] sets both. *)
Record AudioItem := mkAudioItem {
  id : string;
  filename : string;
  source : AudioSource;
  duration : string;
  timestamp : N;
  status : AudioStatus;
  description : string;
  audioUrl : string
}.

#[global] Instance AudioItem_eq_dec : EqDecision AudioItem.
Proof. solve_decision. Defined.

(** [{ ...item, status: s }], and also the assignment [item.status = s]. *)
Definition withStatus (s : AudioStatus) (i : AudioItem) : AudioItem :=
  mkAudioItem (id i) (filename i) (source i) (duration i) (timestamp i) s
    (description i) (audioUrl i).

(** The fields of [AppSettings] the scheduler reads or writes.  The API keys,
    [dataProvider], [pollInterval] and [matchDetails] are only copied by the
    spreads [{ ...settings, autoPlay: b }] and are left out. *)
Record AppSettings := mkAppSettings {
  n8nUrl : string;
  matchId : string;
  persona : string;
  autoPlay : bool;
  liveMatchUrl : string
}.

Definition withAutoPlay (b : bool) (s : AppSettings) : AppSettings :=
  mkAppSettings (n8nUrl s) (matchId s) (persona s) b (liveMatchUrl s).

Record SystemStatus := mkSystemStatus {
  n8nConnection : bool;
  tunnelStatus : bool;
  pythonEngine : bool
}.

Definition withN8nConnection (b : bool) (s : SystemStatus) : SystemStatus :=
  mkSystemStatus b (tunnelStatus s) (pythonEngine s).

(** ** JavaScript helpers *)

(** [!!s] for a string. *)
Definition truthy (s : string) : bool := negb (bool_decide (s = "")).

(** [a || d] where [a] is a possibly missing string: the falsy values are
    [undefined] and the empty string. *)
Definition orElse (a : option string) (d : string) : string :=
  match a with
  | Some s => if truthy s then s else d
  | None => d
  end.

(** [s.includes(k)]: [k] occurs in [s] as a contiguous substring. *)
Fixpoint includes (s k : string) : bool :=
  if String.prefix k s then true
  else match s with
       | EmptyString => false
       | String _ s' => includes s' k
       end.

(** [arr.findIndex(p)], with [None] for [-1]. *)
Definition findIndex {A} (P : A → Prop) `{∀ x, Decision (P x)}
    (l : list A) : option nat :=
  fst <$> list_find P l.

(** [arr.find(p)], with [None] for [undefined]. *)
Definition find {A} (P : A → Prop) `{∀ x, Decision (P x)}
    (l : list A) : option A :=
  snd <$> list_find P l.

(** [arr.some(p)]. *)
Definition some {A} (P : A → Prop) `{∀ x, Decision (P x)}
    (l : list A) : bool :=
  bool_decide (Exists P l).

(** [arr.splice(i, 0, ...xs)]; the index is clamped to the length as
    [take] and [drop] do. *)
Definition spliceIn {A} (i : nat) (xs l : list A) : list A :=
  take i l ++ xs ++ drop i l.

(** [arr.splice(i, 1)] is stdpp's [delete i arr]. *)

Definition isPlaying (i : AudioItem) : Prop := status i = PLAYING.
Definition isQueued (i : AudioItem) : Prop := status i = QUEUED.
Definition hasId (x : string) (i : AudioItem) : Prop := id i = x.

#[global] Instance isPlaying_dec i : Decision (isPlaying i).
Proof. unfold isPlaying. apply _. Defined.
#[global] Instance isQueued_dec i : Decision (isQueued i).
Proof. unfold isQueued. apply _. Defined.
#[global] Instance hasId_dec x i : Decision (hasId x i).
Proof. unfold hasId. apply _. Defined.

(** ** Queue updaters

    Each definition below is the function passed to [setQueue] by the handler
    of the same name; [prev] is the queue at the time the update is applied. *)

(** [handleAudioEnded] (lines 90-109).  [settings] is the render constant
    captured by the closure. *)
Definition audioEndedQueue (settings : AppSettings) (prev : list AudioItem)
    : list AudioItem :=
  match findIndex isPlaying prev with
  | None => prev
  | Some currentPlayingIndex =>
      let newQueue := alter (withStatus COMPLETED) currentPlayingIndex prev in
      let newQueue := delete currentPlayingIndex newQueue in
      if bool_decide (0 < length newQueue) && autoPlay settings
      then alter (withStatus PLAYING) 0 newQueue
      else newQueue
  end.

(** [handleStop] (lines 421-425). *)
Definition stopQueue (prev : list AudioItem) : list AudioItem :=
  (λ item, if decide (status item = PLAYING)
           then withStatus COMPLETED item else item) <$> prev.

(** [handleClear] (line 433). *)
Definition clearQueue (prev : list AudioItem) : list AudioItem :=
  filter isPlaying prev.

(** [handleRemoveItem] (lines 437-455); pausing the audio element is not part
    of the queue. *)
Definition removeItemQueue (settings : AppSettings) (x : string)
    (prev : list AudioItem) : list AudioItem :=
  let newQueue := filter (λ i, id i ≠ x) prev in
  let playing := find isPlaying newQueue in
  if bool_decide (playing = None) && autoPlay settings
     && bool_decide (0 < length newQueue)
  then alter (withStatus PLAYING) 0 newQueue
  else newQueue.

(** [handleManualPlay] (lines 459-484). *)
Definition manualPlayQueue (x : string) (prev : list AudioItem)
    : list AudioItem :=
  match find (hasId x) prev with
  | None => prev
  | Some itemToPlay =>
      let otherItems :=
        (λ i, withStatus (if decide (status i = PLAYING)
                          then QUEUED else status i) i)
          <$> filter (λ i, id i ≠ x) prev in
      withStatus PLAYING itemToPlay :: otherItems
  end.

(** [handleManualStopItem] (lines 488-499). *)
Definition manualStopItemQueue (x : string) (prev : list AudioItem)
    : list AudioItem :=
  match find (hasId x) prev with
  | Some item =>
      if decide (status item = PLAYING)
      then (λ i, if decide (id i = x) then withStatus COMPLETED i else i)
             <$> prev
      else prev
  | None => prev
  end.

(** The placement shared by [handleManualUpload] (lines 384-396) and
    [handleChatSubmit] (lines 623-646): the new items go directly behind the
    playing item, and the first of them starts playing when nothing does.
    Both callers pass a non-empty [newItems]. *)
Definition injectQueue (newItems prev : list AudioItem) : list AudioItem :=
  let playing := find isPlaying prev in
  let waiting := filter (λ i, status i ≠ PLAYING) prev in
  match playing with
  | Some p => p :: newItems ++ waiting
  | None => alter (withStatus PLAYING) 0 (newItems ++ waiting)
  end.

(** [handleDrop] of [AudioQueue.tsx] (lines 27-37), which computes the
    argument of [handleReorder]; the result is [None] where the handler
    returns without calling [onReorder].  The handler has no range test: when
    [draggedIndex] is past the end of [queue] (the queue got shorter during
    the drag), [splice(draggedIndex, 1)] removes nothing, [movedItem] is
    [undefined], and [undefined] is what gets inserted.  The entries of the
    new array are therefore optional items, [None] for [undefined]. *)
Definition handleDrop (draggedIndex : option nat) (dropIndex : nat)
    (queue : list AudioItem) : option (list (option AudioItem)) :=
  match draggedIndex with
  | None => None
  | Some d =>
      if decide (d = dropIndex) then None
      else
        let newQueue := Some <$> queue in
        let movedItem := default None (newQueue !! d) in
        let newQueue := delete d newQueue in
        Some (spliceIn dropIndex [movedItem] newQueue)
  end.

(** ** Remote events and the poll merge (lines 236-315) *)

(** The [audioBase64] field of an event: missing (or empty), a well-formed
    base64 string, decoded into a blob whose object URL is [blobUrl], or a
    string on which [atob] throws. *)
Inductive Base64Field :=
| NoAudio
| DecodedAudio (blobUrl : string)
| UndecodableAudio.

(** An element of [data.events]. *)
Record RemoteEvent := mkRemoteEvent {
  ev_id : string;
  ev_description : option string;
  ev_text : option string;
  ev_audioBase64 : Base64Field
}.

(** The body of the [try] block that builds one item (lines 245-268); [None]
    when [atob] throws and the [catch] only logs. *)
Definition pollItem (now : N) (event : RemoteEvent) : option AudioItem :=
  match ev_audioBase64 event with
  | UndecodableAudio => None
  | a =>
      Some (mkAudioItem (ev_id event)
              ("ai_commentary_" +:+ ev_id event +:+ ".mp3")
              AI "Unknown" now QUEUED
              (orElse (ev_description event)
                 (orElse (ev_text event) "New Event"))
              (match a with DecodedAudio u => u | _ => "" end))
  end.

(** [data.events.forEach(...)] (lines 240-272), threading the two variables
    the callback mutates: the ref [lastEventRef.current] and the array
    [newItems].  The only duplicate check is against the cursor. *)
Fixpoint collectEvents (now : N) (events : list RemoteEvent)
    (lastEvent : string) (newItems : list AudioItem)
    : string * list AudioItem :=
  match events with
  | [] => (lastEvent, newItems)
  | event :: rest =>
      if decide (ev_id event = lastEvent)
      then collectEvents now rest lastEvent newItems
      else collectEvents now rest (ev_id event)
             (newItems ++ option_list (pollItem now event))
  end.

Definition importantKeywords : list string :=
  ["Goal"; "Penalty"; "Red Card"; "Yellow Card"; "VAR"].

(** [importantKeywords.some(k => i.description?.includes(k))]. *)
Definition isImportant (i : AudioItem) : Prop :=
  Exists (λ k, includes (description i) k = true) importantKeywords.

#[global] Instance isImportant_dec i : Decision (isImportant i).
Proof. unfold isImportant. apply _. Defined.

(** The updater of lines 275-313.  [currentSettings] is the value of
    [settingsRef.current] read when the poll was issued. *)
Definition pollMergeQueue (currentSettings : AppSettings)
    (newItems prev : list AudioItem) : list AudioItem :=
  let priorityItems := filter isImportant newItems in
  let normalItems := filter (λ i, ¬ isImportant i) newItems in
  let updatedQueue := prev in
  let playingIndex := findIndex isPlaying updatedQueue in
  let updatedQueue :=
    if bool_decide (0 < length priorityItems) then
      (match playingIndex with
       | Some p => spliceIn (p + 1) priorityItems updatedQueue
       | None => alter (withStatus PLAYING) 0 priorityItems ++ updatedQueue
       end) ++ normalItems
    else updatedQueue ++ newItems in
  let isPlayingNow := some isPlaying updatedQueue in
  if negb isPlayingNow && autoPlay currentSettings then
    match findIndex isQueued updatedQueue with
    | Some nextToPlay => alter (withStatus PLAYING) nextToPlay updatedQueue
    | None => updatedQueue
    end
  else updatedQueue.

(** ** Application state *)

(** [useState] and [useRef] cells of [App], and the flag [isMounted] of the
    polling effect.  [lastStatsRef] holds an opaque JSON value, kept as its
    text; [None] is [null].  [pollCountRef] is a JavaScript number that starts
    at 0 and only grows by one, which is exact below 2^53; it is kept as an
    [N]. *)
Record App := mkApp {
  isStarted : bool;
  settings : AppSettings;
  sysStatus : SystemStatus;
  queue : list AudioItem;
  lastEventRef : string;
  lastStatsRef : option string;
  pollCountRef : N;
  isMounted : bool
}.

Definition setSettings (s : AppSettings) (st : App) : App :=
  mkApp (isStarted st) s (sysStatus st) (queue st) (lastEventRef st)
    (lastStatsRef st) (pollCountRef st) (isMounted st).

Definition setStatus (f : SystemStatus → SystemStatus) (st : App) : App :=
  mkApp (isStarted st) (settings st) (f (sysStatus st)) (queue st)
    (lastEventRef st) (lastStatsRef st) (pollCountRef st) (isMounted st).

Definition setQueue (f : list AudioItem → list AudioItem) (st : App) : App :=
  mkApp (isStarted st) (settings st) (sysStatus st) (f (queue st))
    (lastEventRef st) (lastStatsRef st) (pollCountRef st) (isMounted st).

Definition setLastEvent (x : string) (st : App) : App :=
  mkApp (isStarted st) (settings st) (sysStatus st) (queue st) x
    (lastStatsRef st) (pollCountRef st) (isMounted st).

Definition setLastStats (x : option string) (st : App) : App :=
  mkApp (isStarted st) (settings st) (sysStatus st) (queue st)
    (lastEventRef st) x (pollCountRef st) (isMounted st).

Definition setPollCount (n : N) (st : App) : App :=
  mkApp (isStarted st) (settings st) (sysStatus st) (queue st)
    (lastEventRef st) (lastStatsRef st) n (isMounted st).

Definition setMounted (started mounted : bool) (st : App) : App :=
  mkApp started (settings st) (sysStatus st) (queue st)
    (lastEventRef st) (lastStatsRef st) (pollCountRef st) mounted.

(** The state of the first render: the initial values of lines 13-49. *)
Definition initialApp (saved : AppSettings) : App :=
  mkApp false saved (mkSystemStatus false true false) [] "" None 0 false.

(** [if (!settings.autoPlay) setSettings({ ...settings, autoPlay: true })]. *)
Definition forceAutoPlay (settings : AppSettings) (st : App) : App :=
  if autoPlay settings then st else setSettings (withAutoPlay true settings) st.

(** ** Command handlers *)

(** [handleStart] (lines 58-72) followed by the polling effect of lines
    169-173, which the change of [isStarted] runs. *)
Definition handleStart (settings : AppSettings) (st : App) : App :=
  setMounted true true
    (setStatus (λ prev, mkSystemStatus (truthy (n8nUrl settings))
                          (tunnelStatus prev) true) st).

(** The cleanup of the polling effect (lines 353-356). *)
Definition unmountPolling (st : App) : App :=
  setMounted (isStarted st) false st.

(** [saveSettings] (lines 74-85). *)
Definition saveSettings (settings newSettings : AppSettings) (st : App) : App :=
  let st :=
    if decide (matchId newSettings ≠ matchId settings)
    then setQueue (λ _, []) (setLastStats None (setLastEvent "" st))
    else st in
  setStatus (withN8nConnection (truthy (n8nUrl newSettings)))
    (setSettings newSettings st).

(** [handleResetMatch] (lines 532-550). *)
Definition handleResetMatch (settings : AppSettings) (st : App) : App :=
  let newSettings :=
    mkAppSettings (n8nUrl settings) "" (persona settings) (autoPlay settings) "" in
  setLastStats None (setLastEvent "" (setQueue (λ _, []) (setSettings newSettings st))).

(** [handleAudioEnded] (lines 90-109). *)
Definition handleAudioEnded (settings : AppSettings) (st : App) : App :=
  setQueue (audioEndedQueue settings) st.

(** [handleSkip] (lines 401-413).  The call [handleAudioEnded()] is the
    function of the same render, so its updater reads the same captured
    [settings] as the test of line 407. *)
Definition handleSkip (settings : AppSettings) (st : App) : App :=
  handleAudioEnded settings (forceAutoPlay settings st).

(** [handleStop] (lines 415-430). *)
Definition handleStop (settings : AppSettings) (st : App) : App :=
  setSettings (withAutoPlay false settings) (setQueue stopQueue st).

(** [handleClear] (lines 432-434). *)
Definition handleClear (st : App) : App := setQueue clearQueue st.

(** [handleRemoveItem] (lines 436-456). *)
Definition handleRemoveItem (settings : AppSettings) (x : string) (st : App) : App :=
  setQueue (removeItemQueue settings x) st.

(** [handleManualPlay] (lines 458-485); [setSettings] is reached only past
    the early return. *)
Definition handleManualPlay (settings : AppSettings) (x : string) (st : App) : App :=
  match find (hasId x) (queue st) with
  | None => st
  | Some _ => forceAutoPlay settings (setQueue (manualPlayQueue x) st)
  end.

(** [handleManualStopItem] (lines 487-500). *)
Definition handleManualStopItem (x : string) (st : App) : App :=
  setQueue (manualStopItemQueue x) st.

(** [handleReorder] (lines 502-504). *)
Definition handleReorder (newQueue : list AudioItem) (st : App) : App :=
  setQueue (λ _, newQueue) st.

(** [handleManualUpload] (lines 362-397): [fileName] is [file.name],
    [objectUrl] the result of [URL.createObjectURL] and [now] the clock. *)
Definition handleManualUpload (settings : AppSettings)
    (fileName objectUrl : string) (now : N) (st : App) : App :=
  let newItem :=
    mkAudioItem ("manual_" +:+ pretty now) fileName MANUAL "Unknown" now QUEUED
      ("Manual Override: " +:+ fileName) objectUrl in
  setQueue (injectQueue [newItem]) (forceAutoPlay settings st).

(** ** The polling loop (lines 175-349) *)

(** The parsed body of a response ([data]).  [currentStats] is [None] when
    missing or falsy, [events] is [None] when it is not an array.  The
    [timeElapsed] hint only rewrites [settings.matchDetails], which is outside
    the fields kept in [AppSettings], and is left out. *)
Record PollData := mkPollData {
  currentStats : option string;
  events : option (list RemoteEvent)
}.

(** What the awaited [fetch] (and the reading of its body) delivers.
    [FetchThrows name] is a rejected promise whose error has that [name]:
    ["AbortError"] when the 8 second timer calls [controller.abort()],
    ["TypeError"] for a network failure.  [FetchReturns ok body] is a
    response with [response.ok = ok]; [body] is [None] when [response.json()]
    throws. *)
Inductive FetchOutcome :=
| FetchThrows (errorName : string)
| FetchReturns (ok : bool) (body : option PollData).

(** The request body of lines 201-215, without the credentials. *)
Record PollRequest := mkPollRequest {
  rq_matchId : string;
  rq_type : string;
  rq_lastEventId : string;
  rq_lastStats : option string;
  rq_persona : string;
  rq_skipApi : bool
}.

(** Line 189, on the counter after the increment of line 185. *)
Definition shouldCallApi (pollCount : N) : bool :=
  (pollCount mod 5 =? 0)%N || (pollCount =? 1)%N.

(** The value sent as [skipApi] (line 207). *)
Definition skipApi (pollCount : N) : bool := negb (shouldCallApi pollCount).

(** The calls [setTimeout(pollN8N, delay)] made by one run of a piece of
    [pollN8N], as the list of their delays. *)
Definition Timers := list N.

(** [pollN8N] up to the [await fetch] (lines 176-217).  The result is the
    state, the captured [currentSettings] with the request when one is sent,
    and the timers set. *)
Definition pollN8N_issue (st : App)
    : App * option (AppSettings * PollRequest) * Timers :=
  let currentSettings := settings st in
  if negb (truthy (n8nUrl currentSettings)) || negb (truthy (matchId currentSettings))
  then (st, None, if isMounted st then [1000%N] else [])
  else
    let st := setPollCount (pollCountRef st + 1)%N st in
    let rq := mkPollRequest (matchId currentSettings) "POLL" (lastEventRef st)
                (lastStatsRef st) (persona currentSettings)
                (negb (shouldCallApi (pollCountRef st))) in
    (st, Some (currentSettings, rq), []).

(** Lines 230-317 for a parsed body, inside [if (isMounted)]. *)
Definition pollApply (currentSettings : AppSettings) (now : N)
    (data : PollData) (st : App) : App :=
  let st :=
    match currentStats data with
    | Some stats => setLastStats (Some stats) st
    | None => st
    end in
  let st :=
    match events data with
    | Some ((_ :: _) as evs) =>
        let '(lastEvent, newItems) := collectEvents now evs (lastEventRef st) [] in
        let st := setLastEvent lastEvent st in
        if bool_decide (0 < length newItems) then
          let st :=
            if bool_decide (0 < length (filter isImportant newItems))
            then forceAutoPlay currentSettings st else st in
          setQueue (pollMergeQueue currentSettings newItems) st
        else st
    | _ => st
    end in
  setStatus (withN8nConnection true) st.

(** The [catch] block (lines 338-342) for an error of name [errorName]. *)
Definition pollCatch (errorName : string) (st : App) : App :=
  if decide (errorName ≠ "AbortError") then
    if isMounted st then setStatus (withN8nConnection false) st else st
  else st.

(** [pollN8N] from the [await] on (lines 219-348), for the outcome [out] of
    the request issued with [currentSettings]. *)
Definition pollN8N_resume (currentSettings : AppSettings) (now : N)
    (out : FetchOutcome) (st : App) : App * Timers :=
  let st' :=
    match out with
    | FetchThrows errorName => pollCatch errorName st
    | FetchReturns false _ => pollCatch "Error" st
    | FetchReturns true None => pollCatch "SyntaxError" st
    | FetchReturns true (Some data) =>
        if isMounted st then pollApply currentSettings now data st else st
    end in
  (st', if isMounted st then [1000%N] else []).

(** ** Chat injection (lines 552-655) *)

(** The item built from one event of a chat response (lines 594-619). *)
Definition chatItem (now : N) (event : RemoteEvent) : option AudioItem :=
  match ev_audioBase64 event with
  | UndecodableAudio => None
  | a =>
      Some (mkAudioItem (orElse (Some (ev_id event)) ("chat_" +:+ pretty now))
              ("ai_chat_" +:+ ev_id event +:+ ".mp3")
              AI "Unknown" now QUEUED
              (orElse (ev_description event)
                 (orElse (ev_text event) "Chat Response"))
              (match a with DecodedAudio u => u | _ => "" end))
  end.

(** [handleChatSubmit] from its [await] on, for the [settings] captured when
    the message was sent.  A failure is only logged. *)
Definition handleChatSubmit_resume (settings : AppSettings) (now : N)
    (out : FetchOutcome) (st : App) : App :=
  match out with
  | FetchReturns true (Some data) =>
      match events data with
      | Some ((_ :: _) as evs) =>
          let newItems := evs ≫= (λ e, option_list (chatItem now e)) in
          if bool_decide (0 < length newItems)
          then forceAutoPlay settings (setQueue (injectQueue newItems) st)
          else st
      | _ => st
      end
  | _ => st
  end.

(** ** Operations

    One constructor per atomic step.  A command issued from the user
    interface runs the handler of the latest render, whose captured settings
    are the current ones; the steps that resume an asynchronous function, and
    the [onended] listener installed once by [handleStart], carry the
    snapshot their closure captured. *)
Inductive Op :=
| PollIssue
| PollResume (currentSettings : AppSettings) (now : N) (out : FetchOutcome)
| AudioEnded (captured : AppSettings)
| Skip
| Stop
| Clear
| Remove (x : string)
| Play (x : string)
| StopItem (x : string)
| Reorder (newQueue : list AudioItem)
| ManualUpload (fileName objectUrl : string) (now : N)
| ChatResume (captured : AppSettings) (now : N) (out : FetchOutcome)
| Start
| SaveSettings (newSettings : AppSettings)
| ResetMatch.

Definition exec (op : Op) (st : App) : App :=
  match op with
  | PollIssue => (pollN8N_issue st).1.1
  | PollResume cs now out => (pollN8N_resume cs now out st).1
  | AudioEnded captured => handleAudioEnded captured st
  | Skip => handleSkip (settings st) st
  | Stop => handleStop (settings st) st
  | Clear => handleClear st
  | Remove x => handleRemoveItem (settings st) x st
  | Play x => handleManualPlay (settings st) x st
  | StopItem x => handleManualStopItem x st
  | Reorder newQueue => handleReorder newQueue st
  | ManualUpload f u now => handleManualUpload (settings st) f u now st
  | ChatResume captured now out => handleChatSubmit_resume captured now out st
  | Start => handleStart (settings st) st
  | SaveSettings s => saveSettings (settings st) s st
  | ResetMatch => handleResetMatch (settings st) st
  end.

(** The argument of a reorder is the rendered queue with one item moved
    ([handleDrop]), hence a permutation of the queue; the other operations
    take any argument. *)
Definition allowed (op : Op) (st : App) : Prop :=
  match op with
  | Reorder newQueue => newQueue ≡ₚ queue st
  | _ => True
  end.

(** The states the application can be in, from a first render with an empty
    queue. *)
Inductive reachable : App → Prop :=
| reachable_init saved : reachable (initialApp saved)
| reachable_step op st :
    reachable st → allowed op st → reachable (exec op st).

(** Running a list of operations, first one first. *)
Definition run (ops : list Op) (st : App) : App :=
  foldl (λ s op, exec op s) st ops.

Definition activeCount (q : list AudioItem) : nat :=
  length (filter isPlaying q).

Definition ids (q : list AudioItem) : list string := id <$> q.

(** At most one item is playing. *)
Definition singleActive (q : list AudioItem) : Prop := activeCount q ≤ 1.

(** Every operation of a trace is allowed in the state it is applied to. *)
Fixpoint allowedAll (ops : list Op) (st : App) : Prop :=
  match ops with
  | [] => True
  | op :: ops => allowed op st ∧ allowedAll ops (exec op st)
  end.

(** ** Vocabulary of the statements *)

(** The outcomes of a poll that are failures: a rejected [fetch] (timeout or
    network error), a response that is not [ok], a body that does not parse. *)
Definition pollFailed (out : FetchOutcome) : Prop :=
  match out with
  | FetchReturns true (Some _) => False
  | _ => True
  end.

(** The failure is the 8 second timeout aborting the request. *)
Definition isAbort (out : FetchOutcome) : bool :=
  match out with
  | FetchThrows errorName => bool_decide (errorName = "AbortError")
  | _ => false
  end.

(** [{ ...settings, matchId: x }]. *)
Definition withMatchId (x : string) (s : AppSettings) : AppSettings :=
  mkAppSettings (n8nUrl s) x (persona s) (autoPlay s) (liveMatchUrl s).

(** What a session owns besides its settings: queue, cursor and statistics
    snapshot. *)
Definition sessionData (st : App)
    : list AudioItem * string * option string :=
  (queue st, lastEventRef st, lastStatsRef st).

(** ** The duplicate check of the later copy of the component

    The repository holds a second, later copy of [App], the text-popup
    variant ([src/unnamed/part_000]), whose poll handler runs the same loop
    inside the [setQueue] updater with one more test (lines 355-383):
    [existingIds = new Set(prev.map(i => i.id))] and
    [if (existingIds.has(event.id)) return;] before the cursor test.
    [acceptedIdsStrict] is that loop, keeping of each pushed item its id. *)
Fixpoint acceptedIdsStrict (existingIds : list string)
    (events : list RemoteEvent) (lastEvent : string) (accepted : list string)
    : string * list string :=
  match events with
  | [] => (lastEvent, accepted)
  | event :: rest =>
      if decide (ev_id event ∈ existingIds)
      then acceptedIdsStrict existingIds rest lastEvent accepted
      else if decide (ev_id event = lastEvent)
      then acceptedIdsStrict existingIds rest lastEvent accepted
      else acceptedIdsStrict existingIds rest (ev_id event)
             (accepted ++ [ev_id event])
  end.

(** ** A sample session

    Concrete data on which the statements below are evaluated. *)

Definition demoSettings : AppSettings :=
  mkAppSettings "https://n8n.example/webhook/ai-director" "1208021"
    "Funny, energetic commentator" true "".

(** An event as the remote workflow sends it, with a description and no audio. *)
Definition demoEvent (i d : string) : RemoteEvent :=
  mkRemoteEvent i (Some d) None NoAudio.

(** A successful response carrying the events [evs] and no statistics. *)
Definition demoBatch (evs : list RemoteEvent) : FetchOutcome :=
  FetchReturns true (Some (mkPollData None (Some evs))).

(** The item [pollItem] builds at time [0] from [demoEvent i d], in status [s]. *)
Definition demoItem (i d : string) (s : AudioStatus) : AudioItem :=
  mkAudioItem i ("ai_commentary_" +:+ i +:+ ".mp3") AI "Unknown" 0 s d "".

(** The application started on [demoSettings], after a first poll delivered
    a corner and a throw-in: [e1] is playing and [e2] waits. *)
Definition demoPlaying : App :=
  run [Start; PollIssue;
       PollResume demoSettings 0
         (demoBatch [demoEvent "e1" "Corner kick"; demoEvent "e2" "Throw-in"])]
    (initialApp demoSettings).

(** ** Values derived at render *)

(** [currentPlaying] (line 399): the item handed to [LiveMonitor]. *)
Definition currentPlaying (st : App) : option AudioItem :=
  find isPlaying (queue st).

(** ** Match selection *)

(** [handleSelectMatch] (lines 507-530).  [fixtureIdText] is the string
    [match.fixture.id.toString()]: the conversion of the number to text is
    done by the runtime and its result is taken as given.  The [matchDetails]
    the handler also stores are outside the fields kept in [AppSettings]. *)
Definition handleSelectMatch (settings : AppSettings) (fixtureIdText : string)
    (st : App) : App :=
  let autoUrl := "https://www.aiscore.com/" in
  let newSettings :=
    mkAppSettings (n8nUrl settings) fixtureIdText (persona settings)
      (autoPlay settings) autoUrl in
  saveSettings settings newSettings st.

(** ** The match list of the search dialog

    [MatchSearchModal], whose source follows [ControlPanel] in
    [src/components/ControlPanel.tsx]; it hands the chosen match to
    [handleSelectMatch]. *)

(** The fields of a [Match] the list logic reads.  [kickoff] is the value of
    [new Date(fixture.date).getTime()]: the milliseconds of the date, or
    [None] for the [NaN] a missing or unparsable date gives. *)
Record Match := mkMatch {
  fixtureId : N;
  statusShort : string;
  kickoff : option Z;
  leagueName : string;
  leagueCountry : string
}.

Definition liveStatuses : list string :=
  ["1H"; "2H"; "HT"; "ET"; "P"; "BT"; "LIVE"; "INT"; "ABD"; "AWD"; "WO";
   "IP"; "BREAK"].

Definition scheduledStatuses : list string := ["NS"; "TBD"; "PST"; "POSTP"].

(** [getStatusPriority] (lines 384-393). *)
Definition getStatusPriority (status : string) : Z :=
  if bool_decide (status ∈ liveStatuses) then 0%Z
  else if bool_decide (status ∈ scheduledStatuses) then 1%Z
  else 2%Z.

Inductive SortBy := ByLive | ByTime.

(** The difference of line 432; [None] is [NaN], which the subtraction gives
    as soon as one of the two times is [NaN]. *)
Definition timeDifference (a b : Match) : option Z :=
  match kickoff a, kickoff b with
  | Some timeA, Some timeB => Some (timeA - timeB)%Z
  | _, _ => None
  end.

(** The comparator handed to [filtered.sort] (lines 424-433); [None] is a
    [NaN] result. *)
Definition compareMatches (sortBy : SortBy) (a b : Match) : option Z :=
  match sortBy with
  | ByLive =>
      let priorityA := getStatusPriority (statusShort a) in
      let priorityB := getStatusPriority (statusShort b) in
      if decide (priorityA ≠ priorityB) then Some (priorityA - priorityB)%Z
      else timeDifference a b
  | ByTime => timeDifference a b
  end.

(** The key of line 396. *)
Definition leagueKey (m : Match) : string :=
  leagueCountry m +:+ " - " +:+ leagueName m.

(** [groupedMatches] (lines 395-402): the object built by [reduce] is a map
    from league key to the matches pushed under it.  A key contains [" - "],
    so it never meets a property inherited from [Object.prototype]. *)
Definition groupedMatches (matches : list Match) : gmap string (list Match) :=
  foldl (λ acc m,
           let k := leagueKey m in
           <[k := default [] (acc !! k) ++ [m]]> acc)
    ∅ matches.

(** * Properties *)

(** ** Counting the playing items *)

Section ActiveCount.
Implicit Types (q l : list AudioItem) (x : AudioItem).

Lemma activeCount_app l1 l2 :
  activeCount (l1 ++ l2) = activeCount l1 + activeCount l2.
Proof. unfold activeCount. by rewrite filter_app, length_app. Qed.

Lemma activeCount_cons x l :
  activeCount (x :: l) =
  (if decide (isPlaying x) then 1 else 0) + activeCount l.
Proof.
  unfold activeCount. rewrite filter_cons. by destruct (decide (isPlaying x)).
Qed.

Lemma activeCount_none l :
  Forall (λ x, ¬ isPlaying x) l → activeCount l = 0.
Proof.
  induction 1 as [|x l Hx _ IH]; [done|].
  rewrite activeCount_cons, IH. by rewrite decide_False.
Qed.

Lemma activeCount_zero l :
  activeCount l = 0 → Forall (λ x, ¬ isPlaying x) l.
Proof.
  induction l as [|x l IH]; [constructor|].
  rewrite activeCount_cons. destruct (decide (isPlaying x)); [lia|].
  intros ?. constructor; auto.
Qed.

Lemma activeCount_queued l : Forall isQueued l → activeCount l = 0.
Proof.
  intros H. apply activeCount_none. eapply Forall_impl; [exact H|].
  unfold isQueued, isPlaying. congruence.
Qed.

Lemma activeCount_alter f i l :
  activeCount (alter f i l) ≤ S (activeCount l).
Proof.
  revert i. induction l as [|x l IH]; intros [|i]; simpl; try lia.
  - rewrite !activeCount_cons. repeat case_decide; lia.
  - rewrite !activeCount_cons. specialize (IH i).
    change (list_alter f i l) with (alter f i l). lia.
Qed.

Lemma activeCount_delete i l : activeCount (delete i l) ≤ activeCount l.
Proof.
  revert i. induction l as [|x l IH]; intros [|i]; simpl; try lia.
  - rewrite activeCount_cons. lia.
  - rewrite !activeCount_cons. specialize (IH i). lia.
Qed.

Lemma activeCount_filter (P : AudioItem → Prop) `{∀ x, Decision (P x)} l :
  activeCount (filter P l) ≤ activeCount l.
Proof.
  induction l as [|x l IH]; [done|].
  rewrite filter_cons. destruct (decide (P x));
    rewrite ?activeCount_cons; lia.
Qed.

Lemma activeCount_fmap (f : AudioItem → AudioItem) l :
  (∀ x, isPlaying (f x) → isPlaying x) →
  activeCount (f <$> l) ≤ activeCount l.
Proof.
  intros Hf. induction l as [|x l IH]; [done|].
  rewrite fmap_cons, !activeCount_cons.
  destruct (decide (isPlaying (f x))); destruct (decide (isPlaying x));
    try lia. exfalso; auto.
Qed.

Lemma activeCount_perm l1 l2 : l1 ≡ₚ l2 → activeCount l1 = activeCount l2.
Proof. unfold activeCount. by intros ->. Qed.

(** The item found by [findIndex isPlaying] splits the queue. *)
Lemma findIndex_playing_split l i :
  findIndex isPlaying l = Some i →
  ∃ x, l !! i = Some x ∧ isPlaying x ∧
       Forall (λ y, ¬ isPlaying y) (take i l) ∧
       l = take i l ++ x :: drop (S i) l.
Proof.
  unfold findIndex. destruct (list_find isPlaying l) as [[j x]|] eqn:E;
    [|done].
  intros [= ->]. apply list_find_Some in E as (Hl & Hx & Hlt).
  exists x. repeat split; [done..| |by rewrite take_drop_middle].
  apply Forall_lookup. intros j y Hj. apply lookup_take_Some in Hj as [? ?].
  eauto.
Qed.

Lemma findIndex_playing_None l :
  findIndex isPlaying l = None → activeCount l = 0.
Proof.
  unfold findIndex. destruct (list_find isPlaying l) eqn:E; [done|].
  intros _. apply activeCount_none. by apply list_find_None in E.
Qed.

Lemma find_playing_None l :
  find isPlaying l = None → activeCount l = 0.
Proof.
  unfold find. destruct (list_find isPlaying l) eqn:E; [done|].
  intros _. apply activeCount_none. by apply list_find_None in E.
Qed.

Lemma find_playing_Some l x : find isPlaying l = Some x → isPlaying x.
Proof.
  unfold find. destruct (list_find isPlaying l) as [[j y]|] eqn:E; [|done].
  intros [= ->]. by apply list_find_Some in E as (_ & ? & _).
Qed.

Lemma some_playing_false l : some isPlaying l = false → activeCount l = 0.
Proof.
  unfold some. intros H%bool_decide_eq_false. apply activeCount_none.
  by apply Forall_Exists_neg.
Qed.
End ActiveCount.

(** ** The single-active invariant is kept by every updater *)

Lemma delete_alter_same {A} (f : A → A) i (l : list A) :
  delete i (alter f i l) = delete i l.
Proof.
  by rewrite !delete_take_drop, take_alter_ge, drop_alter_lt by lia.
Qed.

Section SingleActive.
Implicit Types (q prev newItems : list AudioItem) (s : AppSettings).

Lemma audioEndedQueue_single s prev :
  singleActive prev → singleActive (audioEndedQueue s prev).
Proof.
  unfold singleActive, audioEndedQueue. intros Hp.
  destruct (findIndex isPlaying prev) as [i|] eqn:E; [|done].
  apply findIndex_playing_split in E as (x & Hi & Hx & _ & Hsplit).
  assert (activeCount (delete i (alter (withStatus COMPLETED) i prev)) = 0)
    as Hz.
  { apply (f_equal activeCount) in Hsplit.
    rewrite activeCount_app, activeCount_cons, decide_True in Hsplit by done.
    rewrite delete_alter_same, delete_take_drop, activeCount_app. lia. }
  destruct (_ && _); [|lia].
  etrans; [apply activeCount_alter|]. lia.
Qed.

Lemma stopQueue_single prev : singleActive prev → singleActive (stopQueue prev).
Proof.
  unfold singleActive, stopQueue. intros Hp.
  etrans; [apply activeCount_fmap|done].
  intros x. case_decide; [|done]. unfold isPlaying. simpl. done.
Qed.

Lemma clearQueue_single prev : singleActive prev → singleActive (clearQueue prev).
Proof.
  unfold singleActive, clearQueue. intros Hp.
  etrans; [apply activeCount_filter|done].
Qed.

Lemma removeItemQueue_single s x prev :
  singleActive prev → singleActive (removeItemQueue s x prev).
Proof.
  unfold singleActive, removeItemQueue. intros Hp.
  pose proof (activeCount_filter (λ i, id i ≠ x) prev) as Hf.
  destruct (bool_decide (find isPlaying _ = None)) eqn:E; simpl; [|lia].
  apply bool_decide_eq_true in E. apply find_playing_None in E.
  destruct (_ && _); [|lia].
  etrans; [apply activeCount_alter|]. lia.
Qed.

Lemma manualPlayQueue_single x prev :
  singleActive prev → singleActive (manualPlayQueue x prev).
Proof.
  unfold singleActive, manualPlayQueue. intros Hp.
  destruct (find (hasId x) prev) as [item|]; [|done].
  rewrite activeCount_cons, activeCount_none; [case_decide; lia|].
  apply Forall_fmap, Forall_forall. intros i _.
  unfold isPlaying. simpl. case_decide; congruence.
Qed.

Lemma manualStopItemQueue_single x prev :
  singleActive prev → singleActive (manualStopItemQueue x prev).
Proof.
  unfold singleActive, manualStopItemQueue. intros Hp.
  destruct (find (hasId x) prev) as [item|]; [|done].
  case_decide; [|done].
  etrans; [apply activeCount_fmap|done].
  intros i. case_decide; [|done]. unfold isPlaying. simpl. done.
Qed.

(** Injection needs nothing of [prev]: the result has exactly the one
    playing item it puts in front. *)
Lemma injectQueue_single newItems prev :
  Forall isQueued newItems → singleActive (injectQueue newItems prev).
Proof.
  unfold singleActive, injectQueue. intros Hn.
  assert (activeCount (filter (λ i, status i ≠ PLAYING) prev) = 0) as Hw.
  { apply activeCount_none, Forall_forall.
    intros i Hi%list_elem_of_filter. tauto. }
  destruct (find isPlaying prev) as [p|] eqn:E.
  - rewrite activeCount_cons, activeCount_app, (activeCount_queued newItems) by done.
    case_decide; lia.
  - etrans; [apply activeCount_alter|].
    rewrite activeCount_app, (activeCount_queued newItems) by done. lia.
Qed.

Lemma promote_single (b : bool) q :
  singleActive q →
  singleActive
    (if negb (some isPlaying q) && b then
       match findIndex isQueued q with
       | Some nextToPlay => alter (withStatus PLAYING) nextToPlay q
       | None => q
       end
     else q).
Proof.
  unfold singleActive. intros Hq.
  destruct (some isPlaying q) eqn:E; simpl; [done|].
  apply some_playing_false in E.
  destruct b; [|done]. destruct (findIndex isQueued q); [|done].
  etrans; [apply activeCount_alter|]. lia.
Qed.

Lemma pollMergeQueue_single s newItems prev :
  Forall isQueued newItems →
  singleActive prev → singleActive (pollMergeQueue s newItems prev).
Proof.
  intros Hn Hp. unfold pollMergeQueue. apply promote_single.
  unfold singleActive in *.
  assert (activeCount (filter isImportant newItems) = 0) as Hpr.
  { apply activeCount_queued, Forall_forall.
    intros i [_ Hi]%list_elem_of_filter.
    by eapply Forall_forall in Hn. }
  assert (activeCount (filter (λ i, ¬ isImportant i) newItems) = 0) as Hno.
  { apply activeCount_queued, Forall_forall.
    intros i [_ Hi]%list_elem_of_filter.
    by eapply Forall_forall in Hn. }
  case_bool_decide.
  - rewrite activeCount_app, Hno.
    destruct (findIndex isPlaying prev) as [p|] eqn:E.
    + unfold spliceIn. rewrite !activeCount_app, Hpr.
      rewrite <- (take_drop (p + 1) prev) in Hp at 1.
      rewrite activeCount_app in Hp. lia.
    + apply findIndex_playing_None in E.
      rewrite activeCount_app, E.
      pose proof (activeCount_alter (withStatus PLAYING) 0
                    (filter isImportant newItems)). lia.
  - rewrite activeCount_app, (activeCount_queued newItems) by done. lia.
Qed.
End SingleActive.

(** The items built from a batch of events start as [QUEUED]. *)
Lemma collectEvents_queued now evs lastEvent acc :
  Forall isQueued acc → Forall isQueued (collectEvents now evs lastEvent acc).2.
Proof.
  revert lastEvent acc. induction evs as [|e evs IH]; intros lastEvent acc Hacc;
    simpl; [done|].
  case_decide; [by apply IH|]. apply IH, Forall_app. split; [done|].
  unfold pollItem. destruct (ev_audioBase64 e); simpl; repeat constructor.
Qed.

Lemma chatItems_queued now (evs : list RemoteEvent) :
  Forall isQueued (evs ≫= (λ e, option_list (chatItem now e))).
Proof.
  apply Forall_bind, Forall_forall. intros e _. unfold compose.
  unfold chatItem. destruct (ev_audioBase64 e); simpl; repeat constructor.
Qed.

Lemma queue_forceAutoPlay s st : queue (forceAutoPlay s st) = queue st.
Proof. unfold forceAutoPlay. by destruct (autoPlay s). Qed.

Lemma pollApply_single cs now data st :
  singleActive (queue st) → singleActive (queue (pollApply cs now data st)).
Proof.
  intros Hq. unfold pollApply.
  set (st1 := match currentStats data with
              | Some stats => setLastStats (Some stats) st
              | None => st
              end).
  assert (queue st1 = queue st) as Hq1
    by (subst st1; by destruct (currentStats data)).
  change (queue (setStatus ?f ?s)) with (queue s).
  destruct (events data) as [[|e evs]|]; rewrite ?Hq1; try done.
  pose proof (collectEvents_queued now (e :: evs) (lastEventRef st1) []
                (Forall_nil_2 _)) as Hc.
  destruct (collectEvents now (e :: evs) (lastEventRef st1) [])
    as [lastEvent newItems].
  cbv beta iota zeta. cbn [snd] in Hc.
  case_bool_decide; [|by rewrite <- Hq1 in Hq].
  change (queue (setQueue ?f ?s)) with (f (queue s)).
  apply pollMergeQueue_single; [done|].
  case_bool_decide; rewrite ?queue_forceAutoPlay; by rewrite <- Hq1 in Hq.
Qed.

Lemma exec_single op st :
  allowed op st → singleActive (queue st) → singleActive (queue (exec op st)).
Proof.
  intros Hal Hq. destruct op; simpl in *.
  - unfold pollN8N_issue. by destruct (_ || _).
  - unfold pollCatch.
    destruct out as [name|[] [data|]];
      repeat case_decide; destruct (isMounted st); try done.
    by apply pollApply_single.
  - by apply audioEndedQueue_single.
  - unfold handleSkip, handleAudioEnded. simpl.
    rewrite queue_forceAutoPlay. by apply audioEndedQueue_single.
  - by apply stopQueue_single.
  - by apply clearQueue_single.
  - by apply removeItemQueue_single.
  - unfold handleManualPlay. destruct (find (hasId x) (queue st)) eqn:E; [|done].
    rewrite queue_forceAutoPlay. simpl. by apply manualPlayQueue_single.
  - by apply manualStopItemQueue_single.
  - unfold singleActive. by rewrite (activeCount_perm _ _ Hal).
  - rewrite queue_forceAutoPlay. apply injectQueue_single. repeat constructor.
  - unfold handleChatSubmit_resume.
    destruct out as [name|[] [data|]]; try done.
    destruct (events data) as [[|e evs]|]; try done.
    case_bool_decide; [|done]. rewrite queue_forceAutoPlay. simpl.
    apply injectQueue_single, (chatItems_queued now (e :: evs)).
  - done.
  - unfold saveSettings. simpl. case_decide; simpl; [|done].
    unfold singleActive, activeCount. simpl. lia.
  - unfold singleActive, activeCount. simpl. lia.
Qed.

(** C1. Single-active invariant: in every state the application reaches from
    a first render with an empty queue, by any sequence of poll merges and
    commands (completion, skip, stop, clear, remove, explicit play, explicit
    stop, reorder by a permutation, manual inject, chat inject, and also the
    context resets), at most one item of the queue is [PLAYING]. *)
Theorem single_active_invariant st :
  reachable st → activeCount (queue st) ≤ 1.
Proof.
  induction 1 as [saved|op st _ IH Hal].
  - unfold activeCount. simpl. lia.
  - by apply exec_single.
Qed.

(** ** Priority merge *)

Lemma findIndex_playing_middle pre A post :
  Forall (λ i, ¬ isPlaying i) pre → isPlaying A →
  findIndex isPlaying (pre ++ A :: post) = Some (length pre).
Proof.
  intros Hpre HA. unfold findIndex.
  rewrite list_find_app_r by (apply list_find_None; exact Hpre).
  simpl. rewrite decide_True by done. done.
Qed.

Lemma spliceIn_after_middle {A} (pre post xs : list A) a :
  spliceIn (length pre + 1) xs (pre ++ a :: post) = pre ++ a :: xs ++ post.
Proof.
  unfold spliceIn.
  replace (pre ++ a :: post) with ((pre ++ [a]) ++ post)
    by (by rewrite <- app_assoc).
  rewrite take_app_length', drop_app_length' by (rewrite length_app; simpl; lia).
  by rewrite <- !app_assoc.
Qed.

Lemma single_playing_prefix pre A post :
  isPlaying A → activeCount (pre ++ A :: post) = 1 →
  Forall (λ i, ¬ isPlaying i) pre.
Proof.
  intros HA. rewrite activeCount_app, activeCount_cons, decide_True by done.
  intros ?. apply activeCount_zero. lia.
Qed.

(** C3. Priority ordering: when the queue has exactly one playing item [A]
    and the merged batch is a priority item [P] followed by a normal item
    [N], the merge puts [P] directly behind [A] and [N] at the tail, so the
    order is [A, P, N] (with the items that were already waiting between [P]
    and [N]); for the queue [[A]] the result is [[A; P; N]]. *)
Theorem priority_ordering currentSettings pre A post P N :
  isPlaying A → activeCount (pre ++ A :: post) = 1 →
  isImportant P → ¬ isImportant N →
  pollMergeQueue currentSettings [P; N] (pre ++ A :: post)
  = pre ++ A :: P :: post ++ [N].
Proof.
  intros HA Hone HP HN.
  pose proof (single_playing_prefix _ _ _ HA Hone) as Hpre.
  unfold pollMergeQueue.
  rewrite findIndex_playing_middle by done.
  rewrite !filter_cons, !filter_nil.
  rewrite (decide_True (P:=isImportant P)), (decide_False (P:=isImportant N)),
    (decide_False (P:=¬ isImportant P)), (decide_True (P:=¬ isImportant N))
    by tauto.
  rewrite bool_decide_eq_true_2 by (simpl; lia).
  rewrite spliceIn_after_middle.
  assert (some isPlaying ((pre ++ A :: [P] ++ post) ++ [N]) = true) as ->.
  { apply bool_decide_eq_true_2, Exists_exists. exists A. split; [|done].
    rewrite !elem_of_app, elem_of_cons. auto. }
  simpl. by rewrite <- app_assoc.
Qed.

(** ** Sample session *)

Lemma demoPlaying_queue :
  queue demoPlaying
  = [demoItem "e1" "Corner kick" PLAYING; demoItem "e2" "Throw-in" QUEUED].
Proof. reflexivity. Qed.

Lemma reachable_run ops st :
  reachable st → allowedAll ops st → reachable (run ops st).
Proof.
  revert st. induction ops as [|op ops IH]; intros st Hst Hal; [done|].
  destruct Hal as [H1 H2]. apply IH; [by constructor|done].
Qed.

Lemma demoPlaying_reachable : reachable demoPlaying.
Proof. apply reachable_run; [constructor|]. simpl. tauto. Qed.

(** The invariant at the end of a session that goes through every kind of
    operation. *)
Lemma single_active_invariant_witness :
  activeCount
    (queue
       (run [Skip;
             ManualUpload "jingle.mp3" "blob:jingle" 1700000000000;
             PollResume demoSettings 1
               (demoBatch [demoEvent "e3" "Goal - Arsenal";
                           demoEvent "e4" "Substitution"]);
             Reorder (reverse (queue (run
               [Skip;
                ManualUpload "jingle.mp3" "blob:jingle" 1700000000000;
                PollResume demoSettings 1
                  (demoBatch [demoEvent "e3" "Goal - Arsenal";
                              demoEvent "e4" "Substitution"])] demoPlaying)));
             Play "e4"; StopItem "e4"; Remove "e3"; Stop;
             ChatResume demoSettings 2 (demoBatch [demoEvent "c1" "Hello"]);
             AudioEnded demoSettings; Clear]
          demoPlaying)) ≤ 1.
Proof.
  apply single_active_invariant, reachable_run; [apply demoPlaying_reachable|].
  simpl. repeat split. apply reverse_Permutation.
Defined.

(** The merge of a goal and a substitution while [e1] plays. *)
Lemma priority_ordering_witness :
  pollMergeQueue demoSettings
    [demoItem "e3" "Goal - Arsenal" QUEUED; demoItem "e4" "Substitution" QUEUED]
    [demoItem "e1" "Corner kick" PLAYING]
  = [demoItem "e1" "Corner kick" PLAYING;
     demoItem "e3" "Goal - Arsenal" QUEUED;
     demoItem "e4" "Substitution" QUEUED].
Proof.
  apply (priority_ordering demoSettings [] _ []);
    [reflexivity | reflexivity | compute_done | compute_done].
Defined.

(** The same merge through the whole completion of a poll, from the events
    of the response. *)
Example priority_ordering_poll :
  queue (exec (PollResume demoSettings 0
                 (demoBatch [demoEvent "e3" "Goal - Arsenal";
                             demoEvent "e4" "Substitution"]))
           (exec Clear demoPlaying))
  = [demoItem "e1" "Corner kick" PLAYING;
     demoItem "e3" "Goal - Arsenal" QUEUED;
     demoItem "e4" "Substitution" QUEUED].
Proof. reflexivity. Qed.

(** ** Reorder *)

(** What [handleDrop] hands to [handleReorder] for a dragged row of the
    queue is a permutation of the rendered queue, all entries defined. *)
Lemma handleDrop_Permutation d dropIndex q q' :
  handleDrop (Some d) dropIndex q = Some q' → d < length q →
  ∃ newQueue, q' = Some <$> newQueue ∧ newQueue ≡ₚ q.
Proof.
  unfold handleDrop. case_decide; [done|]. intros [= <-] Hd.
  destruct (lookup_lt_is_Some_2 q d Hd) as [movedItem E].
  rewrite list_lookup_fmap, E, <- list_fmap_delete. simpl.
  set (rest := delete d q).
  exists (spliceIn dropIndex [movedItem] rest). split.
  - unfold spliceIn. by rewrite !fmap_app, fmap_take, fmap_drop.
  - unfold spliceIn. transitivity (movedItem :: rest).
    + simpl. rewrite <- Permutation_middle. by rewrite take_drop.
    + symmetry. by apply delete_Permutation.
Qed.

(** ** Skip *)

(** With auto-play on, skipping the playing head of the queue removes it and
    starts the item behind it. *)
Lemma skip_promotes_successor st A B rest :
  autoPlay (settings st) = true →
  queue st = A :: B :: rest → isPlaying A →
  queue (exec Skip st) = withStatus PLAYING B :: rest
  ∧ autoPlay (settings (exec Skip st)) = true.
Proof.
  intros Hauto Hq HA. simpl. unfold handleSkip, handleAudioEnded, forceAutoPlay.
  rewrite Hauto. simpl. rewrite Hq. unfold audioEndedQueue, findIndex. simpl.
  rewrite decide_True by done. simpl. by rewrite Hauto.
Qed.

(** The state in which the operator has switched auto-play off in the
    settings dialog while [e1] plays and [e2] waits. *)
Lemma demoPlaying_autoPlay_off :
  let st := exec (SaveSettings (withAutoPlay false demoSettings)) demoPlaying in
  queue st = [demoItem "e1" "Corner kick" PLAYING;
              demoItem "e2" "Throw-in" QUEUED]
  ∧ autoPlay (settings st) = false.
Proof. split; reflexivity. Qed.

(** C4. Skip with auto-play off: [handleSkip] switches auto-play on with
    [setSettings], but the updater of [handleAudioEnded] it then calls tests
    [settings.autoPlay] of the same render, which is still off.  The playing
    item [e1] is pruned, auto-play ends up enabled, and the waiting item [e2]
    stays [QUEUED] instead of being promoted. *)
Theorem skip_autoPlay_off_leaves_successor_queued :
  let st := exec (SaveSettings (withAutoPlay false demoSettings)) demoPlaying in
  let st' := exec Skip st in
  queue st' = [demoItem "e2" "Throw-in" QUEUED]
  ∧ autoPlay (settings st') = true
  ∧ activeCount (queue st') = 0.
Proof. repeat split; reflexivity. Qed.

(** ** Stop *)

Lemma stopQueue_lookup prev k :
  stopQueue prev !! k
  = (λ item, if decide (status item = PLAYING)
             then withStatus COMPLETED item else item) <$> prev !! k.
Proof. unfold stopQueue. apply list_lookup_fmap. Qed.

(** C5 as stated fails: after stop the item that was playing is still in the
    queue (it is marked [COMPLETED], not pruned). *)
Lemma stop_does_not_prune :
  let st' := exec Stop demoPlaying in
  queue demoPlaying !! 0 = Some (demoItem "e1" "Corner kick" PLAYING)
  ∧ queue demoPlaying !! 1 = Some (demoItem "e2" "Throw-in" QUEUED)
  ∧ queue st' = [demoItem "e1" "Corner kick" COMPLETED;
                 demoItem "e2" "Throw-in" QUEUED]
  ∧ ¬ ("e1" ∉ ids (queue st')).
Proof.
  repeat split. intros H. apply H. compute_done.
Qed.

(** C5, amended. Stop: for every queue with a playing item [A] (at index
    [k]) and a queued item [B] (at index [j]), after stop [A] is still at its
    place with status [COMPLETED], [B] is unchanged and still [QUEUED], no
    item is playing, the queue has kept its length and auto-play is off. *)
Theorem stop_semantics captured st k A j B :
  queue st !! k = Some A → isPlaying A →
  queue st !! j = Some B → isQueued B →
  let st' := handleStop captured st in
  queue st' !! k = Some (withStatus COMPLETED A)
  ∧ queue st' !! j = Some B
  ∧ activeCount (queue st') = 0
  ∧ length (queue st') = length (queue st)
  ∧ autoPlay (settings st') = false.
Proof.
  intros HA HpA HB HqB. simpl.
  rewrite !stopQueue_lookup, HA, HB. simpl.
  unfold isPlaying, isQueued in *.
  rewrite decide_True, decide_False by congruence.
  split; [done|]. split; [done|]. split; [|split; [|done]].
  - apply activeCount_none, Forall_fmap, Forall_forall. intros i _.
    unfold isPlaying. simpl. case_decide; [simpl; congruence|done].
  - unfold stopQueue. apply length_fmap.
Qed.

(** Stop while [e1] plays and [e2] waits. *)
Lemma stop_semantics_witness :
  let st' := handleStop demoSettings demoPlaying in
  queue st' !! 0 = Some (demoItem "e1" "Corner kick" COMPLETED)
  ∧ queue st' !! 1 = Some (demoItem "e2" "Throw-in" QUEUED)
  ∧ activeCount (queue st') = 0
  ∧ length (queue st') = 2
  ∧ autoPlay (settings st') = false.
Proof.
  apply (stop_semantics demoSettings demoPlaying 0
           (demoItem "e1" "Corner kick" PLAYING) 1
           (demoItem "e2" "Throw-in" QUEUED)); reflexivity.
Defined.

(** ** Commands that name an absent item *)

Lemma find_hasId_absent x (q : list AudioItem) :
  x ∉ ids q → find (hasId x) q = None.
Proof.
  intros Hx. unfold find.
  destruct (list_find (hasId x) q) as [[k i]|] eqn:E; [|done].
  apply list_find_Some in E as (Hk & Hi & _). exfalso. apply Hx.
  unfold ids. apply list_elem_of_fmap. exists i. split; [done|].
  by eapply list_elem_of_lookup_2.
Qed.

Lemma filter_other_ids_absent x (q : list AudioItem) :
  x ∉ ids q → filter (λ i, id i ≠ x) q = q.
Proof.
  intros Hx. induction q as [|i q IH]; [done|].
  unfold ids in *. rewrite fmap_cons in Hx. apply not_elem_of_cons in Hx as [? ?].
  rewrite filter_cons, decide_True by done. f_equal. auto.
Qed.

(** Explicit play of an id that is not in the queue changes nothing. *)
Lemma manualPlay_absent captured x st :
  x ∉ ids (queue st) → handleManualPlay captured x st = st.
Proof.
  intros Hx. unfold handleManualPlay. by rewrite find_hasId_absent.
Qed.

(** Removal of an id that is not in the queue changes nothing as long as an
    item is playing, auto-play is off or the queue is empty. *)
Lemma removeItem_absent captured x st :
  x ∉ ids (queue st) →
  activeCount (queue st) ≠ 0 ∨ autoPlay captured = false ∨ queue st = [] →
  queue (handleRemoveItem captured x st) = queue st.
Proof.
  intros Hx Hc. simpl. unfold removeItemQueue.
  rewrite filter_other_ids_absent by done.
  destruct Hc as [Hc|[Hc|Hc]].
  - case_bool_decide as Hf; [|done]. by apply find_playing_None in Hf.
  - rewrite Hc. by rewrite andb_false_r.
  - rewrite Hc. simpl. by rewrite andb_false_r.
Qed.

(** C9. Remove of an absent id is not always a no-op: with auto-play on and
    nothing playing, [handleRemoveItem] starts the head of the queue.  Here
    the operator has stopped playback and switched auto-play back on; removing
    the id ["gone"], which no item has, turns the finished item [e1] back to
    [PLAYING]. *)
Theorem remove_absent_promotes_head :
  let st := run [Stop; SaveSettings demoSettings] demoPlaying in
  let st' := exec (Remove "gone") st in
  ("gone" ∉ ids (queue st))
  ∧ queue st = [demoItem "e1" "Corner kick" COMPLETED;
                demoItem "e2" "Throw-in" QUEUED]
  ∧ queue st' = [demoItem "e1" "Corner kick" PLAYING;
                 demoItem "e2" "Throw-in" QUEUED].
Proof. split; [compute_done|split; reflexivity]. Qed.

(** ** The hint [skipApi] *)

Lemma skipApi_false_iff n :
  skipApi n = false ↔ (n = 1 ∨ n mod 5 = 0)%N.
Proof.
  unfold skipApi, shouldCallApi.
  rewrite negb_false_iff, orb_true_iff, !N.eqb_eq. tauto.
Qed.

(** Only the issue of a request moves the poll counter. *)
Lemma pollCount_exec op st :
  op ≠ PollIssue → pollCountRef (exec op st) = pollCountRef st.
Proof.
  intros Hop. destruct op; try done; simpl.
  - unfold pollCatch. destruct out as [name|[] [data|]];
      repeat case_decide; destruct (isMounted st); try done.
    unfold pollApply.
    destruct (currentStats data), (events data) as [[|e evs]|]; try done;
      destruct (collectEvents _ _ _ _) as [lastEvent newItems];
      cbv beta iota zeta; repeat case_bool_decide; try done;
      unfold forceAutoPlay; by destruct (autoPlay currentSettings).
  - unfold handleSkip, forceAutoPlay. by destruct (autoPlay (settings st)).
  - unfold handleManualPlay, forceAutoPlay.
    destruct (find _ _); [|done]. by destruct (autoPlay (settings st)).
  - unfold handleManualUpload, forceAutoPlay. by destruct (autoPlay (settings st)).
  - unfold handleChatSubmit_resume, forceAutoPlay.
    destruct out as [name|[] [data|]]; try done.
    destruct (events data) as [[|e evs]|]; try done.
    case_bool_decide; [|done]. by destruct (autoPlay captured).
  - unfold saveSettings. by case_decide.
Qed.

(** C10 as stated fails: the first request (poll counter 1) is sent with
    [skipApi = false], it is a full poll. *)
Lemma first_poll_is_full :
  let r := pollN8N_issue (exec Start (initialApp demoSettings)) in
  pollCountRef r.1.1 = 1%N
  ∧ r.1.2 = Some (demoSettings,
                  mkPollRequest "1208021" "POLL" "" None
                    "Funny, energetic commentator" false)
  ∧ skipApi 1 ≠ true.
Proof. repeat split. discriminate. Qed.

(** C10, amended. Every request [pollN8N] sends advances the poll counter by
    one and carries [skipApi = false] (a full poll) exactly when the new
    counter is 1 or a multiple of 5; on every other tick the hint is true. *)
Theorem skip_hint_schedule st st' currentSettings rq timers :
  pollN8N_issue st = (st', Some (currentSettings, rq), timers) →
  pollCountRef st' = (pollCountRef st + 1)%N
  ∧ rq_skipApi rq = skipApi (pollCountRef st')
  ∧ (rq_skipApi rq = false ↔
     (pollCountRef st' = 1 ∨ pollCountRef st' mod 5 = 0)%N).
Proof.
  unfold pollN8N_issue. destruct (_ || _); [done|].
  intros [= <- _ <-]. simpl. split; [done|]. split; [done|].
  apply skipApi_false_iff.
Qed.

(** The second request of the sample session is a cheap one. *)
Lemma skip_hint_schedule_witness :
  pollCountRef demoPlaying = 1%N
  ∧ let r := pollN8N_issue demoPlaying in
    pollCountRef r.1.1 = (pollCountRef demoPlaying + 1)%N
    ∧ rq_skipApi (mkPollRequest "1208021" "POLL" "e2" None
                    "Funny, energetic commentator" true)
      = skipApi (pollCountRef r.1.1)
    ∧ (rq_skipApi (mkPollRequest "1208021" "POLL" "e2" None
                     "Funny, energetic commentator" true) = false ↔
       (pollCountRef r.1.1 = 1 ∨ pollCountRef r.1.1 mod 5 = 0)%N).
Proof.
  split; [reflexivity|].
  apply (skip_hint_schedule demoPlaying _ demoSettings _ []). reflexivity.
Defined.

(** ** Poll failures *)

(** C8 as stated fails for the timeout: the [catch] block skips errors named
    [AbortError], so connectivity stays up. *)
Lemma timeout_keeps_connectivity :
  let r := pollN8N_resume demoSettings 0 (FetchThrows "AbortError") demoPlaying in
  pollFailed (FetchThrows "AbortError")
  ∧ n8nConnection (sysStatus demoPlaying) = true
  ∧ n8nConnection (sysStatus r.1) = true.
Proof. repeat split. Qed.

(** C8, amended. Every failed poll that completes while the polling loop is
    mounted leaves the queue, the cursor, the statistics snapshot and the
    settings as they were and sets exactly one timer, of one second, for the
    next tick; connectivity is flagged down for a network error, a non-success
    response and an unparsable body, and is left as it was for a timeout. *)
Theorem poll_failure_keeps_session currentSettings now out st :
  pollFailed out → isMounted st = true →
  let r := pollN8N_resume currentSettings now out st in
  sessionData r.1 = sessionData st
  ∧ settings r.1 = settings st
  ∧ r.2 = [1000%N]
  ∧ n8nConnection (sysStatus r.1)
    = (if isAbort out then n8nConnection (sysStatus st) else false).
Proof.
  intros Hf Hm. unfold pollN8N_resume, pollCatch. rewrite Hm.
  destruct out as [name|[] [data|]]; simpl in *; try done.
  case_decide; [by rewrite bool_decide_eq_false_2|].
  rewrite bool_decide_eq_true_2; [done|]. by destruct (decide (name = "AbortError")).
Qed.

(** A non-success response while [e1] plays. *)
Lemma poll_failure_keeps_session_witness :
  let r := pollN8N_resume demoSettings 0 (FetchReturns false None) demoPlaying in
  sessionData r.1 = sessionData demoPlaying
  ∧ settings r.1 = settings demoPlaying
  ∧ r.2 = [1000%N]
  ∧ n8nConnection (sysStatus r.1) = false.
Proof.
  apply (poll_failure_keeps_session demoSettings 0 (FetchReturns false None)
           demoPlaying); [exact I | reflexivity].
Defined.

(** ** A response that arrives after a change of match *)

(** The settings after the operator has picked another match. *)
Lemma otherMatch_resets_session :
  let st := run [PollIssue; SaveSettings (withMatchId "977" demoSettings)]
              demoPlaying in
  matchId (settings st) = "977" ∧ sessionData st = ([], "", None).
Proof. split; reflexivity. Qed.

(** C6 as stated fails: a request issued for match ["1208021"] resumes after
    the session was reset to match ["977"]; its events enter the new queue and
    its cursor and statistics replace the fresh ones. *)
Lemma stale_poll_mutates_new_session :
  let st := run [PollIssue; SaveSettings (withMatchId "977" demoSettings)]
              demoPlaying in
  let st' :=
    exec (PollResume demoSettings 0
            (FetchReturns true
               (Some (mkPollData (Some "{score:1-0}")
                        (Some [demoEvent "e9" "Penalty"]))))) st in
  matchId (settings st) = "977"
  ∧ sessionData st = ([], "", None)
  ∧ matchId (settings st') = "977"
  ∧ sessionData st'
    = ([demoItem "e9" "Penalty" PLAYING], "e9", Some "{score:1-0}").
Proof. repeat split. Qed.

Lemma sessionData_forceAutoPlay s st :
  sessionData (forceAutoPlay s st) = sessionData st.
Proof. unfold forceAutoPlay. by destruct (autoPlay s). Qed.

Lemma pollApply_sessionData cs now data st x s' :
  sessionData (pollApply (withMatchId x cs) now data (setSettings s' st))
  = sessionData (pollApply cs now data st).
Proof.
  unfold pollApply.
  destruct (currentStats data) as [stats|], (events data) as [[|e evs]|];
    try done.
  - change (lastEventRef (setLastStats ?a (setSettings ?b ?c)))
      with (lastEventRef c).
    change (lastEventRef (setLastStats ?a st)) with (lastEventRef st).
    destruct (collectEvents now (e :: evs) (lastEventRef st) [])
      as [lastEvent newItems].
    cbv beta iota zeta. repeat case_bool_decide; try done;
      unfold forceAutoPlay; simpl; by destruct (autoPlay cs).
  - change (lastEventRef (setSettings ?b ?c)) with (lastEventRef c).
    destruct (collectEvents now (e :: evs) (lastEventRef st) [])
      as [lastEvent newItems].
    cbv beta iota zeta. repeat case_bool_decide; try done;
      unfold forceAutoPlay; simpl; by destruct (autoPlay cs).
Qed.

Lemma pollApply_applied cs now data st :
  sessionData (pollApply cs now data st)
  = let '(lastEvent, newItems) :=
      collectEvents now (default [] (events data)) (lastEventRef st) [] in
    (if bool_decide (0 < length newItems)
     then pollMergeQueue cs newItems (queue st) else queue st,
     lastEvent,
     match currentStats data with
     | Some stats => Some stats
     | None => lastStatsRef st
     end).
Proof.
  unfold pollApply.
  set (st1 := match currentStats data with
              | Some stats => setLastStats (Some stats) st
              | None => st
              end).
  assert (queue st1 = queue st ∧ lastEventRef st1 = lastEventRef st
          ∧ lastStatsRef st1 = match currentStats data with
                               | Some stats => Some stats
                               | None => lastStatsRef st
                               end) as (Hq & Hl & Hs)
    by (subst st1; by destruct (currentStats data)).
  rewrite <- Hq, <- Hl, <- Hs. clearbody st1.
  destruct (events data) as [[|e evs]|]; try done.
  change (default [] (Some (e :: evs))) with (e :: evs).
  destruct (collectEvents now (e :: evs) (lastEventRef st1) [])
    as [lastEvent newItems].
  cbv beta iota zeta. case_bool_decide; [|done].
  case_bool_decide; unfold sessionData, forceAutoPlay; simpl;
    by destruct (autoPlay cs).
Qed.

(** C6, amended. The completion of a poll is guarded by the flag [isMounted]
    of the polling loop and by nothing else.  A response that resumes after
    the loop was unmounted changes nothing and sets no timer.  A successful
    response that resumes while the loop is mounted is applied to the session
    as it is then: its events are run against the current cursor, the accepted
    items are merged into the current queue, the cursor advances and the
    statistics of the response replace the snapshot, whatever match id [x] the
    request was issued under and whatever settings [s'] (hence match id) are
    current.  For every outcome the effect on queue, cursor and snapshot is
    independent of both: no context tag is compared. *)
Theorem poll_completion_guard currentSettings now out st x s' :
  (isMounted st = false →
   pollN8N_resume currentSettings now out st = (st, []))
  ∧ (isMounted st = true → ∀ data, out = FetchReturns true (Some data) →
     sessionData
       (pollN8N_resume (withMatchId x currentSettings) now out
          (setSettings s' st)).1
     = let '(lastEvent, newItems) :=
         collectEvents now (default [] (events data)) (lastEventRef st) [] in
       (if bool_decide (0 < length newItems)
        then pollMergeQueue currentSettings newItems (queue st) else queue st,
        lastEvent,
        match currentStats data with
        | Some stats => Some stats
        | None => lastStatsRef st
        end))
  ∧ sessionData
      (pollN8N_resume (withMatchId x currentSettings) now out
         (setSettings s' st)).1
    = sessionData (pollN8N_resume currentSettings now out st).1.
Proof.
  split; [|split].
  - intros Hm. unfold pollN8N_resume, pollCatch. rewrite Hm.
    destruct out as [name|[] [data|]]; try done; by case_decide.
  - intros Hm data ->. unfold pollN8N_resume. simpl. rewrite Hm.
    rewrite pollApply_sessionData. apply pollApply_applied.
  - unfold pollN8N_resume, pollCatch. simpl.
    destruct out as [name|[] [data|]]; simpl;
      repeat case_decide; destruct (isMounted st); try done.
    apply pollApply_sessionData.
Qed.

(** Both sides of the guard: a response that resumes after the polling loop
    was unmounted, and the response to a request issued for match
    ["1208021"] that resumes, with the loop mounted, in the fresh session of
    match ["977"]. *)
Lemma poll_completion_guard_witness :
  pollN8N_resume demoSettings 0 (demoBatch [demoEvent "e9" "Penalty"])
    (unmountPolling demoPlaying)
  = (unmountPolling demoPlaying, [])
  ∧ sessionData
      (pollN8N_resume demoSettings 0
         (FetchReturns true
            (Some (mkPollData (Some "{score:1-0}")
                     (Some [demoEvent "e9" "Penalty"]))))
         (run [PollIssue; SaveSettings (withMatchId "977" demoSettings)]
            demoPlaying)).1
    = ([demoItem "e9" "Penalty" PLAYING], "e9", Some "{score:1-0}").
Proof.
  split.
  - apply (poll_completion_guard demoSettings 0
             (demoBatch [demoEvent "e9" "Penalty"])
             (unmountPolling demoPlaying) "977" demoSettings).
    reflexivity.
  - exact (proj1 (proj2
             (poll_completion_guard demoSettings 0
                (FetchReturns true
                   (Some (mkPollData (Some "{score:1-0}")
                            (Some [demoEvent "e9" "Penalty"]))))
                (run [PollIssue; SaveSettings (withMatchId "977" demoSettings)]
                   demoPlaying)
                "1208021" (withMatchId "977" demoSettings)))
             eq_refl _ eq_refl).
Defined.

(** ** Duplicate events *)

(** C2. The duplicate check compares an event with the cursor only.  After
    the batch [e1; e2] the cursor is [e2]; when the next batch brings [e1]
    again it is accepted although an item with that id is in the queue, and
    the id enters the queue a second time. *)
Theorem dedup_compares_cursor_only :
  let st := demoPlaying in
  let st' := exec (PollResume demoSettings 0
                     (demoBatch [demoEvent "e1" "Corner kick"])) st in
  ids (queue st) = ["e1"; "e2"]
  ∧ lastEventRef st = "e2"
  ∧ ids (queue st') = ["e1"; "e2"; "e1"]
  ∧ lastEventRef st' = "e1"
  ∧ (acceptedIdsStrict (ids (queue st)) [demoEvent "e1" "Corner kick"]
      (lastEventRef st) []).2 = [].
Proof. repeat split. Qed.

(** The later copy of the loop accepts no id that is already in the queue. *)
Lemma acceptedIdsStrict_fresh existingIds events lastEvent accepted x :
  x ∈ (acceptedIdsStrict existingIds events lastEvent accepted).2 →
  x ∈ accepted ∨ x ∉ existingIds.
Proof.
  revert lastEvent accepted.
  induction events as [|e events IH]; intros lastEvent accepted; simpl; [auto|].
  repeat case_decide; [apply IH..|].
  intros [Hx|Hx]%IH; [|auto].
  apply elem_of_app in Hx as [?|Hx]; [auto|].
  apply list_elem_of_singleton in Hx as ->. auto.
Qed.

(** C7. The ids of a reachable queue need not be distinct: the same batch
    delivered by two polls in a row enters the queue twice, because the cursor
    only remembers its last event. *)
Theorem duplicate_ids_reachable :
  let st := exec (PollResume demoSettings 0
                    (demoBatch [demoEvent "e1" "Corner kick";
                                demoEvent "e2" "Throw-in"])) demoPlaying in
  reachable st
  ∧ ids (queue st) = ["e1"; "e2"; "e1"; "e2"]
  ∧ ¬ NoDup (ids (queue st)).
Proof.
  split; [by apply reachable_step; [apply demoPlaying_reachable|]|].
  split; [reflexivity|]. intros H.
  apply NoDup_cons in H as [Hn _]. apply Hn. compute_done.
Qed.

(** Chat injection has no duplicate check at all. *)
Lemma chat_inject_duplicates_id :
  ids (queue (exec (ChatResume demoSettings 0
                      (demoBatch [demoEvent "e2" "About that throw-in"]))
                demoPlaying))
  = ["e1"; "e2"; "e2"].
Proof. reflexivity. Qed.

(** Two uploads within the same millisecond get the same generated id. *)
Lemma manual_upload_duplicates_id :
  ids (queue (run [ManualUpload "a.mp3" "blob:a" 1700000000000;
                   ManualUpload "b.mp3" "blob:b" 1700000000000]
                (exec Clear demoPlaying)))
  = ["e1"; "manual_1700000000000"; "manual_1700000000000"].
Proof. reflexivity. Qed.

(** * Further properties of the handlers *)

(** ** Identifiers and statuses under the updaters *)

Lemma ids_app (q1 q2 : list AudioItem) : ids (q1 ++ q2) = ids q1 ++ ids q2.
Proof. unfold ids. apply fmap_app. Qed.

Lemma ids_alter_withStatus s i (q : list AudioItem) :
  ids (alter (withStatus s) i q) = ids q.
Proof.
  unfold ids. revert i. induction q as [|x q IH]; intros [|i]; simpl; try done.
  f_equal. apply IH.
Qed.

Lemma length_alter_withStatus s i (q : list AudioItem) :
  length (alter (withStatus s) i q) = length q.
Proof. apply length_alter. Qed.

(** Setting a non-playing item of the queue to [PLAYING] adds exactly one
    playing item. *)
Lemma activeCount_alter_start i x (q : list AudioItem) :
  q !! i = Some x → ¬ isPlaying x →
  activeCount (alter (withStatus PLAYING) i q) = S (activeCount q).
Proof.
  revert i. induction q as [|y q IH]; intros [|i] Hi Hx; simpl in *; try done.
  - injection Hi as ->. rewrite !activeCount_cons.
    rewrite decide_True by done. by rewrite decide_False.
  - rewrite !activeCount_cons.
    change (list_alter (withStatus PLAYING) i q)
      with (alter (withStatus PLAYING) i q).
    rewrite (IH i) by done. lia.
Qed.

Lemma findIndex_queued_Some (q : list AudioItem) i :
  findIndex isQueued q = Some i → ∃ x, q !! i = Some x ∧ isQueued x.
Proof.
  unfold findIndex. destruct (list_find isQueued q) as [[j x]|] eqn:E; [|done].
  intros [= ->]. apply list_find_Some in E as (? & ? & _). eauto.
Qed.

Lemma findIndex_queued_None (q : list AudioItem) :
  findIndex isQueued q = None → Forall (λ x, ¬ isQueued x) q.
Proof.
  unfold findIndex. destruct (list_find isQueued q) eqn:E; [done|].
  intros _. by apply list_find_None in E.
Qed.

Lemma some_playing_true (q : list AudioItem) :
  some isPlaying q = true → 0 < activeCount q.
Proof.
  unfold some. intros H%bool_decide_eq_true.
  apply Exists_exists in H as (x & Hx & Hp).
  apply list_elem_of_split in Hx as (l1 & l2 & ->).
  rewrite activeCount_app, activeCount_cons, decide_True by done. lia.
Qed.

(** ** The poll merge loses nothing *)

(** The queue the merge builds before the final promotion step. *)
Lemma pollMergeQueue_ids s newItems prev :
  ids (pollMergeQueue s newItems prev)
  = if bool_decide (0 < length (filter isImportant newItems)) then
      match findIndex isPlaying prev with
      | Some p => take (p + 1) (ids prev)
                  ++ ids (filter isImportant newItems)
                  ++ drop (p + 1) (ids prev)
      | None => ids (filter isImportant newItems) ++ ids prev
      end ++ ids (filter (λ i, ¬ isImportant i) newItems)
    else ids prev ++ ids newItems.
Proof.
  unfold pollMergeQueue.
  match goal with
  | |- ids (if ?c then match ?m with Some n => alter ?f n ?u | None => _ end
            else _) = _ =>
      transitivity (ids u);
      [destruct c; [destruct m|]; by rewrite ?ids_alter_withStatus|]
  end.
  case_bool_decide; [|apply ids_app].
  rewrite ids_app. f_equal.
  destruct (findIndex isPlaying prev).
  - unfold spliceIn, ids. by rewrite !fmap_app, fmap_take, fmap_drop.
  - by rewrite ids_app, ids_alter_withStatus.
Qed.

Lemma pollMergeQueue_ids_perm s newItems prev :
  ids (pollMergeQueue s newItems prev) ≡ₚ ids prev ++ ids newItems.
Proof.
  assert (ids (filter isImportant newItems)
          ++ ids (filter (λ i, ¬ isImportant i) newItems) ≡ₚ ids newItems)
    as Hsplit.
  { rewrite <- ids_app. unfold ids. by rewrite filter_app_complement. }
  rewrite pollMergeQueue_ids. case_bool_decide; [|done].
  rewrite <- Hsplit. destruct (findIndex isPlaying prev) as [p|].
  - rewrite <- (take_drop (p + 1) (ids prev)) at 3.
    rewrite <- !app_assoc. f_equiv.
    rewrite !app_assoc. f_equiv. apply Permutation_app_comm.
  - rewrite !app_assoc. f_equiv. apply Permutation_app_comm.
Qed.

Lemma pollMergeQueue_ids_sublist s newItems prev :
  sublist (ids prev) (ids (pollMergeQueue s newItems prev)).
Proof.
  rewrite pollMergeQueue_ids. case_bool_decide; [|by apply sublist_inserts_r].
  destruct (findIndex isPlaying prev) as [p|].
  - apply sublist_inserts_r.
    rewrite <- (take_drop (p + 1) (ids prev)) at 1.
    apply sublist_app; [done|]. by apply sublist_inserts_l.
  - by apply sublist_inserts_r, sublist_inserts_l.
Qed.

(** X1. The poll merge neither drops nor duplicates an item: the ids of the
    merged queue are the ids of the old queue together with the ids of the
    new items, and the old items keep their relative order. *)
Theorem pollMergeQueue_keeps_all s newItems prev :
  ids (pollMergeQueue s newItems prev) ≡ₚ ids prev ++ ids newItems
  ∧ sublist (ids prev) (ids (pollMergeQueue s newItems prev))
  ∧ length (pollMergeQueue s newItems prev)
    = length prev + length newItems.
Proof.
  pose proof (pollMergeQueue_ids_perm s newItems prev) as Hperm.
  split; [done|]. split; [apply pollMergeQueue_ids_sublist|].
  apply Permutation_length in Hperm.
  unfold ids in Hperm. by rewrite length_app, !length_fmap in Hperm.
Qed.

(** X2. Routine commentary is first in, first out: a batch without priority
    items is appended at the tail in arrival order, and when auto-play was off
    at the time of the request, or an item is playing, the merged queue is
    exactly the old queue followed by the batch (no status changes). *)
Theorem pollMergeQueue_normal_fifo s newItems prev :
  Forall (λ i, ¬ isImportant i) newItems →
  ids (pollMergeQueue s newItems prev) = ids prev ++ ids newItems
  ∧ (autoPlay s = false ∨ activeCount prev ≠ 0 →
     pollMergeQueue s newItems prev = prev ++ newItems).
Proof.
  intros Hn.
  assert (filter isImportant newItems = []) as Hnil.
  { induction Hn as [|x l Hx _ IH]; [done|].
    by rewrite filter_cons, decide_False. }
  split.
  - by rewrite pollMergeQueue_ids, Hnil.
  - intros Hc. unfold pollMergeQueue. rewrite Hnil. simpl.
    destruct Hc as [->|Hc]; [by rewrite andb_false_r|].
    destruct (some isPlaying (prev ++ newItems)) eqn:E; [done|].
    apply some_playing_false in E. rewrite activeCount_app in E. lia.
Qed.

Lemma pollMergeQueue_normal_fifo_witness :
  ids (pollMergeQueue demoSettings [demoItem "e3" "Substitution" QUEUED]
         (queue demoPlaying))
  = ids (queue demoPlaying) ++ ["e3"]
  ∧ (autoPlay demoSettings = false ∨ activeCount (queue demoPlaying) ≠ 0 →
     pollMergeQueue demoSettings [demoItem "e3" "Substitution" QUEUED]
       (queue demoPlaying)
     = queue demoPlaying ++ [demoItem "e3" "Substitution" QUEUED]).
Proof.
  apply (pollMergeQueue_normal_fifo demoSettings
           [demoItem "e3" "Substitution" QUEUED] (queue demoPlaying)).
  repeat constructor. compute_done.
Defined.

(** ** The poll merge and playback *)

Lemma filter_important_queued newItems :
  Forall isQueued newItems → Forall isQueued (filter isImportant newItems).
Proof.
  intros H. apply Forall_forall. intros i [_ Hi]%list_elem_of_filter.
  by eapply Forall_forall in H.
Qed.

Lemma queued_not_playing x : isQueued x → ¬ isPlaying x.
Proof. unfold isQueued, isPlaying. congruence. Qed.

(** X3. A merge starts playback when it may: if the new items are [QUEUED],
    the batch is not empty, the old queue has at most one playing item, and
    either auto-play was on when the poll was issued or the batch holds a
    priority item, then exactly one item is playing afterwards. *)
Theorem pollMergeQueue_starts_playback s newItems prev :
  Forall isQueued newItems → newItems ≠ [] → singleActive prev →
  autoPlay s = true ∨ Exists isImportant newItems →
  activeCount (pollMergeQueue s newItems prev) = 1.
Proof.
  intros Hq Hne Hp Hc. unfold singleActive in Hp.
  pose proof (filter_important_queued _ Hq) as Hpq.
  assert (activeCount (filter isImportant newItems) = 0) as Hpr
    by by apply activeCount_queued.
  assert (activeCount (filter (λ i, ¬ isImportant i) newItems) = 0) as Hno.
  { apply activeCount_queued, Forall_forall.
    intros i [_ Hi]%list_elem_of_filter. by eapply Forall_forall in Hq. }
  unfold pollMergeQueue.
  set (u := if bool_decide (0 < length (filter isImportant newItems)) then _
            else _).
  assert (activeCount u ≤ 1 ∧ (activeCount u = 0 → autoPlay s = true)
          ∧ (activeCount u = 0 → ∃ i x, u !! i = Some x ∧ isQueued x))
    as (Hu1 & Hu2 & Hu3).
  { subst u. case_bool_decide as Hlen.
    - destruct (filter isImportant newItems) as [|p ps] eqn:Ef;
        [simpl in Hlen; lia|].
      apply Forall_cons in Hpq as [Hpq1 Hpq2].
      rewrite activeCount_cons, decide_False in Hpr
        by by apply queued_not_playing.
      destruct (findIndex isPlaying prev) as [k|] eqn:E.
      + apply findIndex_playing_split in E as (x & Hk & Hx & _ & Hsplit).
        apply (f_equal activeCount) in Hsplit.
        rewrite activeCount_app, activeCount_cons, decide_True in Hsplit
          by done.
        unfold spliceIn. rewrite !activeCount_app, Hno.
        rewrite activeCount_cons, decide_False by by apply queued_not_playing.
        pose proof (f_equal activeCount (take_drop (k + 1) prev)) as Htd.
        rewrite activeCount_app in Htd. repeat split; lia.
      + apply findIndex_playing_None in E. simpl.
        rewrite activeCount_cons, !activeCount_app, decide_True, E, Hno
          by done.
        repeat split; lia.
    - rewrite activeCount_app, (activeCount_queued newItems) by done.
      split; [lia|]. split.
      + intros _. destruct Hc as [?|Hc]; [done|]. exfalso.
        apply Exists_exists in Hc as (x & Hx & Hi).
        assert (x ∈ filter isImportant newItems) as Hin
          by by apply list_elem_of_filter.
        destruct (filter isImportant newItems); [by apply elem_of_nil in Hin|].
        simpl in *. lia.
      + intros _. destruct newItems as [|x l]; [done|].
        apply Forall_cons in Hq as [Hx _].
        exists (length prev), x. split; [|done].
        by rewrite lookup_app_r, Nat.sub_diag by lia. }
  destruct (some isPlaying u) eqn:E; simpl.
  - apply some_playing_true in E. lia.
  - apply some_playing_false in E. rewrite (Hu2 E).
    destruct (Hu3 E) as (i & x & Hi & Hx).
    destruct (findIndex isQueued u) as [k|] eqn:Ek.
    + apply findIndex_queued_Some in Ek as (y & Hk & Hy).
      rewrite (activeCount_alter_start k y) by (try done; by apply queued_not_playing).
      lia.
    + apply findIndex_queued_None in Ek.
      eapply Forall_lookup in Ek; [|exact Hi]. done.
Qed.

Lemma pollMergeQueue_starts_playback_witness :
  activeCount
    (pollMergeQueue (withAutoPlay false demoSettings)
       [demoItem "e3" "Penalty" QUEUED]
       [demoItem "e1" "Corner kick" COMPLETED]) = 1.
Proof.
  apply pollMergeQueue_starts_playback.
  - repeat constructor.
  - discriminate.
  - unfold singleActive. vm_compute. lia.
  - right. constructor. compute_done.
Defined.

(** X4. Breaking news does not wait: when nothing is playing, the first
    priority item of the batch is put at the head of the queue as [PLAYING],
    the other priority items follow it, then the old queue and the normal
    items, whether auto-play is on or off. *)
Theorem pollMergeQueue_priority_when_idle s newItems prev p ps :
  activeCount prev = 0 → filter isImportant newItems = p :: ps →
  pollMergeQueue s newItems prev
  = withStatus PLAYING p :: ps ++ prev
    ++ filter (λ i, ¬ isImportant i) newItems.
Proof.
  intros Hidle Hf. unfold pollMergeQueue. rewrite Hf.
  assert (findIndex isPlaying prev = None) as ->.
  { unfold findIndex. apply activeCount_zero in Hidle.
    by rewrite (proj2 (list_find_None isPlaying prev) Hidle). }
  simpl. by rewrite <- app_assoc.
Qed.

Lemma pollMergeQueue_priority_when_idle_witness :
  pollMergeQueue (withAutoPlay false demoSettings)
    [demoItem "e3" "Substitution" QUEUED; demoItem "e4" "Red Card" QUEUED]
    [demoItem "e1" "Corner kick" COMPLETED]
  = [demoItem "e4" "Red Card" PLAYING;
     demoItem "e1" "Corner kick" COMPLETED;
     demoItem "e3" "Substitution" QUEUED].
Proof.
  exact (pollMergeQueue_priority_when_idle (withAutoPlay false demoSettings)
           [demoItem "e3" "Substitution" QUEUED;
            demoItem "e4" "Red Card" QUEUED]
           [demoItem "e1" "Corner kick" COMPLETED]
           (demoItem "e4" "Red Card" QUEUED) [] eq_refl eq_refl).
Defined.

(** ** The event loop of a poll *)

(** X5. After a non-empty batch the cursor is the id of the last event of
    the batch, whether that event was accepted, rejected as a duplicate or
    dropped because its audio could not be decoded. *)
Theorem collectEvents_cursor_is_last now events lastEvent newItems e :
  last events = Some e →
  (collectEvents now events lastEvent newItems).1 = ev_id e.
Proof.
  revert lastEvent newItems.
  induction events as [|e' events IH]; intros lastEvent newItems Hl; [done|].
  simpl. destruct events as [|e'' events].
  - injection Hl as ->. simpl. by case_decide.
  - rewrite last_cons_cons in Hl. case_decide; by apply IH.
Qed.

Lemma collectEvents_cursor_is_last_witness :
  (collectEvents 0
     [demoEvent "e1" "Corner kick";
      mkRemoteEvent "e2" (Some "Throw-in") None UndecodableAudio]
     "e1" []).1 = "e2".
Proof.
  by apply (collectEvents_cursor_is_last 0 _ "e1" []
              (mkRemoteEvent "e2" (Some "Throw-in") None UndecodableAudio)).
Defined.

Lemma collectEvents_acc now events lastEvent acc :
  (collectEvents now events lastEvent acc).2
  = acc ++ (collectEvents now events lastEvent []).2.
Proof.
  revert lastEvent acc. induction events as [|e events IH];
    intros lastEvent acc; simpl; [by rewrite app_nil_r|].
  case_decide; [apply IH|].
  rewrite (IH _ (acc ++ _)), (IH _ (option_list _)). by rewrite app_assoc.
Qed.

Lemma pollItem_id now e x : pollItem now e = Some x → id x = ev_id e.
Proof.
  unfold pollItem. destruct (ev_audioBase64 e); intros [= <-]; done.
Qed.

(** X6. The items a poll accepts are events of the batch, in arrival order:
    their ids form a sublist of the ids of the batch, and there are at most
    as many of them as events. *)
Theorem collectEvents_sublist now events lastEvent :
  sublist (ids (collectEvents now events lastEvent []).2) (ev_id <$> events)
  ∧ length (collectEvents now events lastEvent []).2 ≤ length events.
Proof.
  assert (sublist (ids (collectEvents now events lastEvent []).2)
            (ev_id <$> events)) as Hs.
  { revert lastEvent. induction events as [|e events IH]; intros lastEvent;
      simpl; [done|].
    case_decide; [by apply sublist_cons|].
    rewrite collectEvents_acc, ids_app. simpl.
    destruct (pollItem now e) as [x|] eqn:E; simpl.
    - rewrite (pollItem_id _ _ _ E). by apply sublist_skip.
    - by apply sublist_cons. }
  split; [done|]. apply sublist_length in Hs.
  unfold ids in Hs. by rewrite !length_fmap in Hs.
Qed.

(** X7. A batch of events with decodable (or no) audio whose ids are pairwise
    distinct and differ from the cursor is accepted whole: one item per event,
    in arrival order. *)
Theorem collectEvents_accepts_fresh now events lastEvent :
  NoDup (lastEvent :: (ev_id <$> events)) →
  Forall (λ e, ev_audioBase64 e ≠ UndecodableAudio) events →
  ids (collectEvents now events lastEvent []).2 = ev_id <$> events.
Proof.
  revert lastEvent. induction events as [|e events IH];
    intros lastEvent Hnd Hok; simpl; [done|].
  apply Forall_cons in Hok as [He Hok].
  rewrite fmap_cons in Hnd.
  apply NoDup_cons in Hnd as [Hc Hnd].
  rewrite decide_False by (intros Heq; apply Hc; rewrite Heq; left).
  rewrite collectEvents_acc, ids_app, (IH _ Hnd Hok).
  unfold pollItem. by destruct (ev_audioBase64 e).
Qed.

Lemma collectEvents_accepts_fresh_witness :
  ids (collectEvents 0
         [demoEvent "e3" "Goal - Arsenal"; demoEvent "e4" "Substitution"]
         "e2" []).2
  = ["e3"; "e4"].
Proof.
  apply (collectEvents_accepts_fresh 0
           [demoEvent "e3" "Goal - Arsenal"; demoEvent "e4" "Substitution"]
           "e2").
  - compute_done.
  - repeat constructor; discriminate.
Defined.

(** ** Remove and completion *)

Lemma ids_filter_id (P : string → Prop)
    (H1 : ∀ i : AudioItem, Decision (P (id i))) (H2 : ∀ x, Decision (P x))
    (q : list AudioItem) :
  ids (filter (λ i, P (id i)) q) = filter P (ids q).
Proof.
  unfold ids. induction q as [|x q IH]; [done|].
  rewrite fmap_cons, !filter_cons.
  destruct (decide (P (id x))) as [?|?], (decide (P (id x))) as [?|?];
    try done.
  rewrite fmap_cons. by f_equal.
Qed.

(** X8. Remove deletes every item that has the named id and nothing else:
    the remaining ids are the old ids without that id, in the same order, so
    the id no longer occurs in the queue. *)
Theorem removeItemQueue_ids captured x prev :
  ids (removeItemQueue captured x prev) = filter (λ y, y ≠ x) (ids prev)
  ∧ x ∉ ids (removeItemQueue captured x prev).
Proof.
  assert (ids (removeItemQueue captured x prev)
          = filter (λ y, y ≠ x) (ids prev)) as Hids.
  { unfold removeItemQueue.
    destruct (_ && _); rewrite ?ids_alter_withStatus;
      apply (ids_filter_id (λ y, y ≠ x)). }
  split; [done|]. rewrite Hids. intros [Hx _]%list_elem_of_filter. done.
Qed.

Lemma ids_delete i (q : list AudioItem) : ids (delete i q) = delete i (ids q).
Proof. unfold ids. apply list_fmap_delete. Qed.

Lemma audioEndedQueue_removes_playing_aux captured prev :
  match findIndex isPlaying prev with
  | Some i => S (length (audioEndedQueue captured prev)) = length prev
  | None => audioEndedQueue captured prev = prev
  end.
Proof.
  unfold audioEndedQueue.
  destruct (findIndex isPlaying prev) as [i|] eqn:E; [|done].
  apply findIndex_playing_split in E as (x & Hi & _).
  rewrite delete_alter_same.
  pose proof (lookup_lt_Some _ _ _ Hi).
  destruct (_ && _); rewrite ?length_alter, length_delete by eauto; lia.
Qed.

(** X9. Completion removes exactly one item, the first playing one, and
    keeps the others in order; when nothing is playing it does nothing. *)
Theorem audioEndedQueue_removes_playing captured prev :
  match findIndex isPlaying prev with
  | Some i =>
      ids (audioEndedQueue captured prev) = delete i (ids prev)
      ∧ S (length (audioEndedQueue captured prev)) = length prev
  | None => audioEndedQueue captured prev = prev
  end.
Proof.
  unfold audioEndedQueue.
  destruct (findIndex isPlaying prev) as [i|] eqn:E; [|done].
  apply findIndex_playing_split in E as (x & Hi & _).
  rewrite delete_alter_same.
  assert (S (length (delete i prev)) = length prev) as Hlen.
  { pose proof (lookup_lt_Some _ _ _ Hi). rewrite length_delete by eauto. lia. }
  destruct (_ && _);
    by rewrite ?ids_alter_withStatus, ?length_alter, ids_delete.
Qed.

Lemma filter_Forall_id {A} (P : A → Prop) `{∀ x, Decision (P x)} (l : list A) :
  Forall P l → filter P l = l.
Proof.
  induction 1 as [|x l Hx _ IH]; [done|].
  by rewrite filter_cons, decide_True, IH.
Qed.



(** ** Explicit play and explicit stop *)

Lemma find_cons {A} (P : A → Prop) `{∀ x, Decision (P x)} (y : A) l :
  find P (y :: l) = if decide (P y) then Some y else find P l.
Proof.
  unfold find. simpl. case_decide; [done|].
  by destruct (list_find P l) as [[? ?]|].
Qed.

Lemma find_hasId_fmap x (f : AudioItem → AudioItem) (q : list AudioItem) :
  (∀ i, id (f i) = id i) →
  find (hasId x) (f <$> q) = f <$> find (hasId x) q.
Proof.
  intros Hf. induction q as [|y q IH]; [done|].
  rewrite fmap_cons, !find_cons.
  destruct (decide (hasId x (f y))) as [H1|H1],
    (decide (hasId x y)) as [H2|H2]; unfold hasId in *;
    rewrite Hf in H1; done.
Qed.

Lemma find_hasId_Some x (q : list AudioItem) item :
  find (hasId x) q = Some item → id item = x ∧ item ∈ q.
Proof.
  unfold find. destruct (list_find (hasId x) q) as [[k i]|] eqn:E; [|done].
  intros [= ->]. apply list_find_Some in E as (Hk & Hi & _).
  split; [done|]. by eapply list_elem_of_lookup_2.
Qed.

Lemma find_hasId_present x (q : list AudioItem) :
  x ∈ ids q → is_Some (find (hasId x) q).
Proof.
  intros Hx. destruct (find (hasId x) q) eqn:E; [by eexists|].
  unfold find in E. destruct (list_find (hasId x) q) eqn:E'; [done|].
  apply list_find_None in E'. unfold ids in Hx.
  apply list_elem_of_fmap in Hx as (i & -> & Hi).
  eapply Forall_forall in E'; [|exact Hi]. by destruct E'.
Qed.

(** The other items of an explicit play: none of them is playing, and their
    ids are the old ids without the played one. *)
Lemma manualPlay_others x (q : list AudioItem) :
  let otherItems :=
    (λ i, withStatus (if decide (status i = PLAYING)
                      then QUEUED else status i) i)
      <$> filter (λ i, id i ≠ x) q in
  activeCount otherItems = 0 ∧ ids otherItems = filter (λ y, y ≠ x) (ids q).
Proof.
  split.
  - apply activeCount_none, Forall_fmap, Forall_forall. intros i _.
    unfold isPlaying. simpl. case_decide; congruence.
  - unfold ids at 1. rewrite <- list_fmap_compose.
    apply (ids_filter_id (λ y, y ≠ x)).
Qed.

Lemma NoDup_filter_other (x : string) (l : list string) :
  NoDup l → x ∈ l → x :: filter (λ y, y ≠ x) l ≡ₚ l.
Proof.
  induction 1 as [|y l Hy Hnd IH]; [by intros ?%elem_of_nil|].
  rewrite filter_cons. intros [->|Hx]%elem_of_cons.
  - rewrite decide_False by tauto. f_equiv.
    rewrite filter_Forall_id; [done|].
    apply Forall_forall. by intros z Hz ->.
  - rewrite decide_True by (by intros ->).
    rewrite Permutation_swap. f_equiv. by apply IH.
Qed.

(** X11. Explicit play: when the queue holds an item with the named id, the
    first such item becomes the head of the queue with status [PLAYING], it
    is the only playing item, and the other ids follow in their old order;
    when the ids of the queue are pairwise distinct no item is lost. *)
Theorem manualPlayQueue_plays x prev :
  x ∈ ids prev →
  ∃ item rest,
    find (hasId x) prev = Some item
    ∧ manualPlayQueue x prev = withStatus PLAYING item :: rest
    ∧ activeCount (manualPlayQueue x prev) = 1
    ∧ ids (manualPlayQueue x prev) = x :: filter (λ y, y ≠ x) (ids prev)
    ∧ (NoDup (ids prev) → ids (manualPlayQueue x prev) ≡ₚ ids prev).
Proof.
  intros Hx. destruct (find_hasId_present _ _ Hx) as [item Hitem].
  destruct (find_hasId_Some _ _ _ Hitem) as [Hid _].
  destruct (manualPlay_others x prev) as [Hc Hids].
  unfold manualPlayQueue. rewrite Hitem.
  set (rest := _ <$> filter (λ i, id i ≠ x) prev) in *.
  assert (ids (withStatus PLAYING item :: rest)
          = x :: filter (λ y, y ≠ x) (ids prev)) as Hfull.
  { unfold ids at 1. rewrite fmap_cons. fold (ids rest).
    rewrite Hids. simpl. by rewrite Hid. }
  exists item, rest. split; [done|]. split; [done|]. split.
  { rewrite activeCount_cons, decide_True by done. lia. }
  split; [done|]. intros Hnd. rewrite Hfull. by apply NoDup_filter_other.
Qed.

Lemma manualPlayQueue_plays_witness :
  ∃ item rest,
    find (hasId "e2") (queue demoPlaying) = Some item
    ∧ manualPlayQueue "e2" (queue demoPlaying) = withStatus PLAYING item :: rest
    ∧ activeCount (manualPlayQueue "e2" (queue demoPlaying)) = 1
    ∧ ids (manualPlayQueue "e2" (queue demoPlaying))
      = "e2" :: filter (λ y, y ≠ "e2") (ids (queue demoPlaying))
    ∧ (NoDup (ids (queue demoPlaying)) →
       ids (manualPlayQueue "e2" (queue demoPlaying))
       ≡ₚ ids (queue demoPlaying)).
Proof. apply manualPlayQueue_plays. compute_done. Defined.

Lemma filter_other_fmap_stop x (q : list AudioItem) :
  filter (λ i, id i ≠ x)
    ((λ i, if decide (id i = x) then withStatus COMPLETED i else i) <$> q)
  = filter (λ i, id i ≠ x) q.
Proof.
  induction q as [|y q IH]; [done|].
  rewrite fmap_cons, !filter_cons. destruct (decide (id y = x)) as [Hy|Hy].
  - rewrite !decide_False by (simpl; tauto). apply IH.
  - rewrite !decide_True by done. by rewrite IH.
Qed.

(** X12. Replay: explicit stop of the playing item keeps it in the queue,
    at its place, with status [COMPLETED] and changes no other item with
    another id; an explicit play of the same id then puts it back at the head
    as [PLAYING], and the queue is the one the explicit play alone would have
    given. *)
Theorem manualPlay_after_manualStop x prev k item :
  prev !! k = Some item → find (hasId x) prev = Some item → isPlaying item →
  manualStopItemQueue x prev !! k = Some (withStatus COMPLETED item)
  ∧ length (manualStopItemQueue x prev) = length prev
  ∧ find (hasId x) (manualStopItemQueue x prev)
    = Some (withStatus COMPLETED item)
  ∧ (∀ j y, prev !! j = Some y → id y ≠ x →
       manualStopItemQueue x prev !! j = Some y)
  ∧ (∃ rest, manualPlayQueue x (manualStopItemQueue x prev)
             = withStatus PLAYING item :: rest)
  ∧ manualPlayQueue x (manualStopItemQueue x prev) = manualPlayQueue x prev.
Proof.
  intros Hk E Hp. destruct (find_hasId_Some _ _ _ E) as [Hid _].
  assert (manualStopItemQueue x prev
          = (λ i, if decide (id i = x) then withStatus COMPLETED i else i)
              <$> prev) as Hstop.
  { unfold manualStopItemQueue. rewrite E. by rewrite decide_True. }
  assert (find (hasId x) (manualStopItemQueue x prev)
          = Some (withStatus COMPLETED item)) as Hfind.
  { rewrite Hstop, find_hasId_fmap by (intros i; by case_decide).
    rewrite E. simpl. by rewrite decide_True. }
  assert (manualPlayQueue x (manualStopItemQueue x prev)
          = manualPlayQueue x prev) as Heq.
  { unfold manualPlayQueue at 1. rewrite Hfind.
    unfold manualPlayQueue. rewrite E, Hstop.
    by rewrite filter_other_fmap_stop. }
  split; [|split; [|split; [done|split; [|split; [|done]]]]].
  - rewrite Hstop, list_lookup_fmap, Hk. simpl. by rewrite decide_True.
  - rewrite Hstop. apply length_fmap.
  - intros j y Hj Hy. rewrite Hstop, list_lookup_fmap, Hj. simpl.
    by rewrite decide_False.
  - rewrite Heq. unfold manualPlayQueue. rewrite E. by eexists.
Qed.

(** Stop and replay of the playing item [e1] of the sample queue. *)
Lemma manualPlay_after_manualStop_witness :
  manualStopItemQueue "e1" (queue demoPlaying) !! 0
  = Some (withStatus COMPLETED (demoItem "e1" "Corner kick" PLAYING))
  ∧ length (manualStopItemQueue "e1" (queue demoPlaying))
    = length (queue demoPlaying)
  ∧ find (hasId "e1") (manualStopItemQueue "e1" (queue demoPlaying))
    = Some (withStatus COMPLETED (demoItem "e1" "Corner kick" PLAYING))
  ∧ (∀ j y, queue demoPlaying !! j = Some y → id y ≠ "e1" →
       manualStopItemQueue "e1" (queue demoPlaying) !! j = Some y)
  ∧ (∃ rest, manualPlayQueue "e1" (manualStopItemQueue "e1" (queue demoPlaying))
             = withStatus PLAYING (demoItem "e1" "Corner kick" PLAYING) :: rest)
  ∧ manualPlayQueue "e1" (manualStopItemQueue "e1" (queue demoPlaying))
    = manualPlayQueue "e1" (queue demoPlaying).
Proof.
  apply (manualPlay_after_manualStop "e1" (queue demoPlaying) 0
           (demoItem "e1" "Corner kick" PLAYING)); reflexivity.
Defined.

(** X13. Explicit stop never removes or moves an item; it changes the queue
    only when the first item with the named id is playing, and then, in a
    queue with at most one playing item, nothing is playing afterwards (no
    successor is started). *)
Theorem manualStopItemQueue_freezes x prev :
  singleActive prev →
  ids (manualStopItemQueue x prev) = ids prev
  ∧ match find (hasId x) prev with
    | Some item =>
        if decide (status item = PLAYING)
        then activeCount (manualStopItemQueue x prev) = 0
        else manualStopItemQueue x prev = prev
    | None => manualStopItemQueue x prev = prev
    end.
Proof.
  intros Hs. unfold singleActive in Hs. unfold manualStopItemQueue.
  destruct (find (hasId x) prev) as [item|] eqn:E; [|done].
  case_decide as Hp; [|done].
  destruct (find_hasId_Some _ _ _ E) as [Hid Hin].
  split.
  - unfold ids. rewrite <- list_fmap_compose. apply list_fmap_ext.
    intros ? i _. simpl. by case_decide.
  - apply list_elem_of_split in Hin as (l1 & l2 & ->).
    rewrite activeCount_app, activeCount_cons, decide_True in Hs by done.
    rewrite fmap_app, fmap_cons, decide_True by done.
    rewrite activeCount_app, activeCount_cons, decide_False
      by (unfold isPlaying; simpl; congruence).
    pose proof (activeCount_fmap
      (λ i, if decide (id i = x) then withStatus COMPLETED i else i) l1) as H1.
    pose proof (activeCount_fmap
      (λ i, if decide (id i = x) then withStatus COMPLETED i else i) l2) as H2.
    assert (∀ i, isPlaying (if decide (id i = x)
                            then withStatus COMPLETED i else i) → isPlaying i)
      as Hf by (intros i; by case_decide).
    specialize (H1 Hf). specialize (H2 Hf). lia.
Qed.

Lemma manualStopItemQueue_freezes_witness :
  ids (manualStopItemQueue "e1" (queue demoPlaying)) = ids (queue demoPlaying)
  ∧ match find (hasId "e1") (queue demoPlaying) with
    | Some item =>
        if decide (status item = PLAYING)
        then activeCount (manualStopItemQueue "e1" (queue demoPlaying)) = 0
        else manualStopItemQueue "e1" (queue demoPlaying) = queue demoPlaying
    | None => manualStopItemQueue "e1" (queue demoPlaying) = queue demoPlaying
    end.
Proof.
  apply manualStopItemQueue_freezes. unfold singleActive. vm_compute. lia.
Defined.

(** ** Injection: manual upload and chat *)

Lemma length_waiting (q : list AudioItem) :
  length (filter (λ i, status i ≠ PLAYING) q) + activeCount q = length q.
Proof.
  induction q as [|x q IH]; [done|].
  rewrite filter_cons, activeCount_cons. unfold isPlaying.
  destruct (decide (status x = PLAYING)).
  - rewrite decide_False by tauto. simpl. lia.
  - rewrite decide_True by done. simpl. lia.
Qed.

Lemma find_playing_split (q : list AudioItem) p :
  find isPlaying q = Some p → isPlaying p ∧ 0 < activeCount q.
Proof.
  intros H. pose proof (find_playing_Some _ _ H) as Hp. split; [done|].
  unfold find in H. destruct (list_find isPlaying q) as [[k y]|] eqn:E; [|done].
  injection H as ->. apply list_find_Some in E as (Hk & _ & _).
  apply list_elem_of_lookup_2, list_elem_of_split in Hk as (l1 & l2 & ->).
  rewrite activeCount_app, activeCount_cons, decide_True by done. lia.
Qed.

(** The placement used by manual upload and chat injection, in a queue with
    at most one playing item: nothing is lost, the new items are all added,
    and exactly one item is playing afterwards. *)
Lemma injectQueue_effect newItems prev :
  Forall isQueued newItems → newItems ≠ [] → singleActive prev →
  length (injectQueue newItems prev) = length newItems + length prev
  ∧ activeCount (injectQueue newItems prev) = 1
  ∧ ids (injectQueue newItems prev)
    = ids (option_list (find isPlaying prev)) ++ ids newItems
      ++ ids (filter (λ i, status i ≠ PLAYING) prev).
Proof.
  intros Hq Hne Hs. unfold singleActive in Hs.
  pose proof (length_waiting prev) as Hlen.
  assert (activeCount (filter (λ i, status i ≠ PLAYING) prev) = 0) as Hw.
  { apply activeCount_none, Forall_forall.
    intros i Hi%list_elem_of_filter. tauto. }
  unfold injectQueue. destruct (find isPlaying prev) as [p|] eqn:E.
  - apply find_playing_split in E as [Hp Hpos].
    rewrite activeCount_cons, decide_True, activeCount_app,
      (activeCount_queued newItems), Hw by done.
    split; [simpl; rewrite length_app; lia|]. split; [lia|].
    unfold ids. by rewrite fmap_cons, fmap_app.
  - apply find_playing_None in E.
    rewrite ids_alter_withStatus, length_alter, length_app.
    split; [lia|]. split; [|by rewrite ids_app].
    destruct newItems as [|x l]; [done|].
    apply Forall_cons in Hq as [Hx Hl]. simpl.
    rewrite activeCount_cons, decide_True, activeCount_app,
      (activeCount_queued l), Hw by done.
    lia.
Qed.

(** X14. Manual upload: in a queue with at most one playing item the upload
    adds exactly one item, whose id is ["manual_"] followed by the clock
    value, exactly one item is playing afterwards, and auto-play is on. *)
Theorem manualUpload_effect fileName objectUrl now st :
  singleActive (queue st) →
  let st' := exec (ManualUpload fileName objectUrl now) st in
  length (queue st') = S (length (queue st))
  ∧ activeCount (queue st') = 1
  ∧ ("manual_" +:+ pretty now) ∈ ids (queue st')
  ∧ autoPlay (settings st') = true.
Proof.
  intros Hs. simpl. unfold handleManualUpload.
  change (queue (setQueue ?f ?s)) with (f (queue s)).
  rewrite queue_forceAutoPlay.
  set (newItem := mkAudioItem _ _ _ _ _ _ _ _).
  destruct (injectQueue_effect [newItem] (queue st)) as (Hl & Hc & Hi);
    [by repeat constructor|done|done|].
  split; [by rewrite Hl|]. split; [done|]. split.
  - rewrite Hi, !elem_of_app. right. left. simpl. left.
  - unfold forceAutoPlay. simpl. by destruct (autoPlay (settings st)) eqn:E.
Qed.

Lemma manualUpload_effect_witness :
  let st' := exec (ManualUpload "jingle.mp3" "blob:jingle" 1700000000000)
               demoPlaying in
  length (queue st') = S (length (queue demoPlaying))
  ∧ activeCount (queue st') = 1
  ∧ ("manual_" +:+ pretty 1700000000000%N) ∈ ids (queue st')
  ∧ autoPlay (settings st') = true.
Proof.
  apply (manualUpload_effect "jingle.mp3" "blob:jingle" 1700000000000
           demoPlaying).
  unfold singleActive. vm_compute. lia.
Defined.

(** X15. Chat injection never touches the cursor, the statistics snapshot,
    the connectivity flag or the poll counter, whatever the response; a
    failed request changes nothing at all; and when items are injected into a
    queue with at most one playing item, exactly one item is playing
    afterwards and no old item is lost. *)
Theorem chat_inject_effect captured now out st :
  singleActive (queue st) →
  let st' := handleChatSubmit_resume captured now out st in
  lastEventRef st' = lastEventRef st
  ∧ lastStatsRef st' = lastStatsRef st
  ∧ sysStatus st' = sysStatus st
  ∧ pollCountRef st' = pollCountRef st
  ∧ (pollFailed out → st' = st)
  ∧ (queue st' ≠ queue st →
     activeCount (queue st') = 1 ∧ length (queue st) < length (queue st')).
Proof.
  intros Hs. unfold handleChatSubmit_resume.
  destruct out as [name|[] [data|]]; simpl; try done.
  destruct (events data) as [[|e evs]|]; try done.
  set (newItems := (e :: evs) ≫= _).
  case_bool_decide as Hlen; [|done].
  assert (newItems ≠ []) as Hne by (intros Heq; rewrite Heq in Hlen; simpl in Hlen; lia).
  destruct (injectQueue_effect newItems (queue st)) as (Hl & Hc & _);
    [apply (chatItems_queued now (e :: evs))|done|done|].
  unfold forceAutoPlay.
  destruct (autoPlay captured); simpl; repeat split; try done; lia.
Qed.

Lemma chat_inject_effect_witness :
  let st' := handleChatSubmit_resume demoSettings 0
               (demoBatch [demoEvent "c1" "About that corner"]) demoPlaying in
  lastEventRef st' = lastEventRef demoPlaying
  ∧ lastStatsRef st' = lastStatsRef demoPlaying
  ∧ sysStatus st' = sysStatus demoPlaying
  ∧ pollCountRef st' = pollCountRef demoPlaying
  ∧ (pollFailed (demoBatch [demoEvent "c1" "About that corner"]) →
     st' = demoPlaying)
  ∧ (queue st' ≠ queue demoPlaying →
     activeCount (queue st') = 1
     ∧ length (queue demoPlaying) < length (queue st')).
Proof.
  apply (chat_inject_effect demoSettings 0
           (demoBatch [demoEvent "c1" "About that corner"]) demoPlaying).
  unfold singleActive. vm_compute. lia.
Defined.

(** ** Reorder and clear *)

Lemma delete_out_of_range {A} (l : list A) i :
  length l ≤ i → delete i l = l.
Proof.
  revert i. induction l as [|x l IH]; intros [|i] Hi; simpl in *;
    try done; try lia.
  f_equal. apply IH. lia.
Qed.

(** X16. Drag and drop.  For a drop on another row of the queue the handler
    always calls [onReorder].  When the dragged index is a row of the queue,
    the dragged item ends at the row it was dropped on and the new array is a
    permutation of the old queue, with every entry defined.  When the dragged
    index is past the end of the queue, nothing is removed and an [undefined]
    entry is inserted at the drop row, so the array gets one longer. *)
Theorem handleDrop_lands draggedIndex dropIndex q :
  draggedIndex ≠ dropIndex → dropIndex < length q →
  ∃ q', handleDrop (Some draggedIndex) dropIndex q = Some q'
    ∧ q' !! dropIndex = Some (q !! draggedIndex)
    ∧ (draggedIndex < length q →
       length q' = length q
       ∧ ∃ newQueue, q' = Some <$> newQueue ∧ newQueue ≡ₚ q)
    ∧ (length q ≤ draggedIndex →
       q' = spliceIn dropIndex [None] (Some <$> q)
       ∧ length q' = S (length q)).
Proof.
  intros Hne Hk.
  destruct (handleDrop (Some draggedIndex) dropIndex q) as [q'|] eqn:E;
    [|unfold handleDrop in E; by rewrite decide_False in E].
  exists q'. split; [done|].
  assert (q' = spliceIn dropIndex
                 [default None ((Some <$> q) !! draggedIndex)]
                 (delete draggedIndex (Some <$> q))) as Hq'.
  { unfold handleDrop in E. rewrite decide_False in E by done.
    by injection E as <-. }
  assert (default None ((Some <$> q) !! draggedIndex) = q !! draggedIndex)
    as Hmoved.
  { rewrite list_lookup_fmap. by destruct (q !! draggedIndex). }
  rewrite Hmoved in Hq'.
  assert (dropIndex ≤ length (delete draggedIndex (Some <$> q))) as Hlen.
  { destruct (decide (draggedIndex < length q)).
    - rewrite length_delete, length_fmap
        by (apply lookup_lt_is_Some_2; by rewrite length_fmap).
      lia.
    - rewrite delete_out_of_range, length_fmap by (rewrite length_fmap; lia).
      lia. }
  split; [|split].
  - rewrite Hq'. unfold spliceIn.
    rewrite lookup_app_r by (rewrite length_take; lia).
    rewrite length_take, Nat.min_l by lia. by rewrite Nat.sub_diag.
  - intros Hd. destruct (handleDrop_Permutation _ _ _ _ E Hd)
      as (newQueue & -> & Hperm).
    split; [|by exists newQueue].
    rewrite length_fmap. by apply Permutation_length.
  - intros Hd. rewrite lookup_ge_None_2 in Hq' by done.
    rewrite delete_out_of_range in Hq' by (by rewrite length_fmap).
    split; [done|]. rewrite Hq'. unfold spliceIn.
    rewrite !length_app, length_take, length_drop, length_fmap. simpl. lia.
Qed.

(** Dragging the first row of the sample queue onto the second, and a drag
    whose index is past the end. *)
Lemma handleDrop_lands_witness :
  (∃ q', handleDrop (Some 0) 1 (queue demoPlaying) = Some q'
    ∧ q' !! 1 = Some (queue demoPlaying !! 0)
    ∧ (0 < length (queue demoPlaying) →
       length q' = length (queue demoPlaying)
       ∧ ∃ newQueue, q' = Some <$> newQueue ∧ newQueue ≡ₚ queue demoPlaying)
    ∧ (length (queue demoPlaying) ≤ 0 →
       q' = spliceIn 1 [None] (Some <$> queue demoPlaying)
       ∧ length q' = S (length (queue demoPlaying))))
  ∧ (∃ q', handleDrop (Some 5) 1 (queue demoPlaying) = Some q'
    ∧ q' !! 1 = Some (queue demoPlaying !! 5)
    ∧ (5 < length (queue demoPlaying) →
       length q' = length (queue demoPlaying)
       ∧ ∃ newQueue, q' = Some <$> newQueue ∧ newQueue ≡ₚ queue demoPlaying)
    ∧ (length (queue demoPlaying) ≤ 5 →
       q' = spliceIn 1 [None] (Some <$> queue demoPlaying)
       ∧ length q' = S (length (queue demoPlaying)))).
Proof.
  split.
  - apply (handleDrop_lands 0 1 (queue demoPlaying)); [lia|vm_compute; lia].
  - apply (handleDrop_lands 5 1 (queue demoPlaying)); [lia|vm_compute; lia].
Defined.

(** The invariant of the reachable states, for use below. *)
Lemma reachable_singleActive st : reachable st → singleActive (queue st).
Proof.
  induction 1 as [saved|op st _ IH Hal].
  - unfold singleActive, activeCount. simpl. lia.
  - by apply exec_single.
Qed.

Lemma filter_playing_single (q : list AudioItem) :
  singleActive q → filter isPlaying q = option_list (find isPlaying q).
Proof.
  unfold singleActive. induction q as [|x q IH]; [done|].
  rewrite activeCount_cons, filter_cons, find_cons.
  destruct (decide (isPlaying x)); intros H.
  - simpl. f_equal. assert (activeCount q = 0) as H0 by lia.
    apply activeCount_zero in H0. clear -H0.
    induction H0 as [|y l Hy _ IH]; [done|].
    by rewrite filter_cons, decide_False.
  - apply IH. lia.
Qed.

(** X17. Clear in a reachable state leaves exactly the item shown as
    current ([currentPlaying]), or the empty queue when nothing is playing;
    that item stays the current one. *)
Theorem clear_keeps_current st :
  reachable st →
  queue (exec Clear st) = option_list (currentPlaying st)
  ∧ currentPlaying (exec Clear st) = currentPlaying st.
Proof.
  intros Hr%reachable_singleActive. simpl. unfold clearQueue, currentPlaying.
  simpl. unfold clearQueue. rewrite (filter_playing_single _ Hr).
  split; [done|]. destruct (find isPlaying (queue st)) as [p|] eqn:E; [|done].
  simpl. rewrite find_cons. by rewrite decide_True by by eapply find_playing_Some.
Qed.

Lemma clear_keeps_current_witness :
  queue (exec Clear demoPlaying) = option_list (currentPlaying demoPlaying)
  ∧ currentPlaying (exec Clear demoPlaying) = currentPlaying demoPlaying.
Proof. apply clear_keeps_current, demoPlaying_reachable. Defined.

(** ** The rhythm of full polls *)

Lemma shouldCallApi_multiple (q c : N) :
  (5 * q + c ≠ 1)%N →
  shouldCallApi (5 * q + c) = (c mod 5 =? 0)%N.
Proof.
  intros Hne. unfold shouldCallApi.
  replace (5 * q + c)%N with (c + q * 5)%N by lia.
  rewrite N.Div0.mod_add.
  destruct (N.eqb_spec (c + q * 5) 1); [lia|]. by rewrite orb_false_r.
Qed.

(** X18. From the second poll on the full polls are exactly five ticks
    apart: when poll [n > 1] is a full one, the four polls after it are cheap
    and poll [n + 5] is the next full one. *)
Theorem full_polls_every_fifth (n : N) :
  (1 < n)%N → shouldCallApi n = true →
  skipApi (n + 1) = true ∧ skipApi (n + 2) = true
  ∧ skipApi (n + 3) = true ∧ skipApi (n + 4) = true
  ∧ skipApi (n + 5) = false.
Proof.
  intros Hn Hfull. unfold shouldCallApi in Hfull.
  destruct (N.eqb_spec n 1); [lia|]. rewrite orb_false_r in Hfull.
  apply N.eqb_eq in Hfull.
  pose proof (N.div_mod n 5 ltac:(lia)) as Hdiv. rewrite Hfull in Hdiv.
  assert (∃ q, n = 5 * q + 0)%N as [q ->] by (exists (n / 5)%N; lia).
  clear Hdiv Hfull.
  unfold skipApi.
  replace (5 * q + 0 + 1)%N with (5 * q + 1)%N by lia.
  replace (5 * q + 0 + 2)%N with (5 * q + 2)%N by lia.
  replace (5 * q + 0 + 3)%N with (5 * q + 3)%N by lia.
  replace (5 * q + 0 + 4)%N with (5 * q + 4)%N by lia.
  replace (5 * q + 0 + 5)%N with (5 * q + 5)%N by lia.
  rewrite !shouldCallApi_multiple by lia. done.
Qed.

Lemma full_polls_every_fifth_witness :
  skipApi (5 + 1) = true ∧ skipApi (5 + 2) = true
  ∧ skipApi (5 + 3) = true ∧ skipApi (5 + 4) = true
  ∧ skipApi (5 + 5) = false.
Proof. apply (full_polls_every_fifth 5); [lia | reflexivity]. Defined.

(** ** Priority classification *)

Lemma prefix_spec (k s : string) :
  String.prefix k s = true ↔ ∃ b, s = k +:+ b.
Proof.
  revert k. induction s as [|c' s IH]; intros [|c k]; simpl.
  - split; [intros _; by exists ""|done].
  - split; [done|]. by intros [b ?].
  - split; [intros _; by exists (String c' s)|done].
  - destruct (Ascii.ascii_dec c c') as [->|Hne].
    + rewrite IH. split; intros [b Hb]; exists b.
      * by rewrite Hb.
      * by injection Hb.
    + split; [done|]. intros [b Hb]. by injection Hb.
Qed.

Lemma includes_step (c : Ascii.ascii) (s k : string) :
  includes (String c s) k
  = if String.prefix k (String c s) then true else includes s k.
Proof. reflexivity. Qed.

Lemma includes_spec (s k : string) :
  includes s k = true ↔ ∃ a b, s = a +:+ k +:+ b.
Proof.
  induction s as [|c s IH].
  - destruct k as [|c k]; simpl.
    + split; [intros _; by exists "", ""|done].
    + split; [done|]. intros (a & b & Hab). by destruct a.
  - rewrite includes_step.
    destruct (String.prefix k (String c s)) eqn:E.
    + split; [|done]. intros _. apply prefix_spec in E as [b Hb].
      by exists "", b.
    + rewrite IH. split.
      * intros (a & b & ->). by exists (String c a), b.
      * intros (a & b & Hab). destruct a as [|c' a].
        -- assert (String.prefix k (String c s) = true) as Hp
             by (apply prefix_spec; by exists b).
           congruence.
        -- injection Hab as -> ->. by exists a, b.
Qed.

(** X19. An item is a priority item exactly when its description contains,
    as a contiguous substring and with this capitalisation, one of the words
    [Goal], [Penalty], [Red Card], [Yellow Card] or [VAR]. *)
Theorem isImportant_spec (i : AudioItem) :
  isImportant i ↔
  ∃ k a b, k ∈ ["Goal"; "Penalty"; "Red Card"; "Yellow Card"; "VAR"]
           ∧ description i = a +:+ k +:+ b.
Proof.
  unfold isImportant. rewrite Exists_exists. split.
  - intros (k & Hk & (a & b & Hab)%includes_spec). by exists k, a, b.
  - intros (k & a & b & Hk & Hab). exists k. split; [done|].
    apply includes_spec. by exists a, b.
Qed.

(** ** Changing the match and the polling loop *)




(** ** Successful polls *)

Lemma pollApply_fields cs now data st :
  let st' := pollApply cs now data st in
  n8nConnection (sysStatus st') = true
  ∧ lastStatsRef st'
    = match currentStats data with
      | Some stats => Some stats
      | None => lastStatsRef st
      end
  ∧ pollCountRef st' = pollCountRef st
  ∧ isMounted st' = isMounted st
  ∧ sublist (ids (queue st)) (ids (queue st')).
Proof.
  unfold pollApply.
  set (st1 := match currentStats data with
              | Some stats => setLastStats (Some stats) st
              | None => st
              end).
  assert (queue st1 = queue st ∧ pollCountRef st1 = pollCountRef st
          ∧ isMounted st1 = isMounted st
          ∧ lastStatsRef st1 = match currentStats data with
                               | Some stats => Some stats
                               | None => lastStatsRef st
                               end) as (Hq & Hp & Hm & Hs)
    by (subst st1; by destruct (currentStats data)).
  rewrite <- Hq, <- Hp, <- Hm, <- Hs. clearbody st1.
  destruct (events data) as [[|e evs]|]; try done.
  destruct (collectEvents now (e :: evs) (lastEventRef st1) [])
    as [lastEvent newItems].
  cbv beta iota zeta. case_bool_decide; [|done].
  change (queue (setQueue ?f ?s)) with (f (queue s)).
  assert (∀ b : bool,
            queue (if b then forceAutoPlay cs (setLastEvent lastEvent st1)
                   else setLastEvent lastEvent st1) = queue st1) as Hqq
    by (intros []; by rewrite ?queue_forceAutoPlay).
  simpl. rewrite Hqq.
  unfold forceAutoPlay.
  repeat split;
    try (case_bool_decide; [destruct (autoPlay cs)|]; done).
  apply pollMergeQueue_ids_sublist.
Qed.

(** X22. A successful poll that completes while the loop is mounted flags
    connectivity up, sets exactly one timer of one second, keeps the poll
    counter, replaces the statistics snapshot only when the response carries
    one, and removes no item from the queue (the old ids stay, in order). *)
Theorem poll_success_effect currentSettings now data st :
  isMounted st = true →
  let r := pollN8N_resume currentSettings now (FetchReturns true (Some data)) st in
  n8nConnection (sysStatus r.1) = true
  ∧ r.2 = [1000%N]
  ∧ lastStatsRef r.1
    = match currentStats data with
      | Some stats => Some stats
      | None => lastStatsRef st
      end
  ∧ pollCountRef r.1 = pollCountRef st
  ∧ sublist (ids (queue st)) (ids (queue r.1)).
Proof.
  intros Hm. unfold pollN8N_resume. rewrite Hm. simpl.
  destruct (pollApply_fields currentSettings now data st)
    as (H1 & H2 & H3 & _ & H5).
  done.
Qed.

Lemma poll_success_effect_witness :
  let r := pollN8N_resume demoSettings 0
             (FetchReturns true
                (Some (mkPollData None
                         (Some [demoEvent "e3" "Goal - Arsenal"]))))
             demoPlaying in
  n8nConnection (sysStatus r.1) = true
  ∧ r.2 = [1000%N]
  ∧ lastStatsRef r.1 = lastStatsRef demoPlaying
  ∧ pollCountRef r.1 = pollCountRef demoPlaying
  ∧ sublist (ids (queue demoPlaying)) (ids (queue r.1)).
Proof.
  apply (poll_success_effect demoSettings 0
           (mkPollData None (Some [demoEvent "e3" "Goal - Arsenal"]))
           demoPlaying).
  reflexivity.
Defined.

(** X23. A priority item restores the captured settings: when the request
    was issued with auto-play off and the poll accepts a priority item, the
    settings become the settings captured at issue time with auto-play
    switched on, whatever the settings were when the response arrived. *)
Theorem priority_poll_forces_autoPlay currentSettings now stats evs st :
  autoPlay currentSettings = false →
  Exists isImportant (collectEvents now evs (lastEventRef st) []).2 →
  settings (pollApply currentSettings now (mkPollData stats (Some evs)) st)
  = withAutoPlay true currentSettings.
Proof.
  intros Ha Hex. unfold pollApply. simpl.
  assert (lastEventRef (match stats with
                        | Some s => setLastStats (Some s) st
                        | None => st
                        end) = lastEventRef st) as Hl by by destruct stats.
  destruct evs as [|e evs]; [by apply Exists_nil in Hex|].
  rewrite Hl.
  destruct (collectEvents now (e :: evs) (lastEventRef st) [])
    as [lastEvent newItems].
  cbv beta iota zeta. simpl in Hex.
  apply Exists_exists in Hex as (x & Hx & Hi).
  assert (x ∈ filter isImportant newItems) as Hin
    by by apply list_elem_of_filter.
  assert (0 < length newItems) as Hlen1
    by (destruct newItems; [by apply elem_of_nil in Hx|simpl; lia]).
  assert (0 < length (filter isImportant newItems)) as Hlen2
    by (destruct (filter isImportant newItems);
        [by apply elem_of_nil in Hin|simpl; lia]).
  rewrite !bool_decide_eq_true_2 by done.
  unfold forceAutoPlay. by rewrite Ha.
Qed.

Lemma priority_poll_forces_autoPlay_witness :
  settings
    (pollApply (withAutoPlay false demoSettings) 0
       (mkPollData None (Some [demoEvent "e3" "Goal - Arsenal"]))
       (exec (SaveSettings (withMatchId "977" demoSettings)) demoPlaying))
  = withAutoPlay true (withAutoPlay false demoSettings).
Proof.
  apply (priority_poll_forces_autoPlay (withAutoPlay false demoSettings) 0
           None [demoEvent "e3" "Goal - Arsenal"]
           (exec (SaveSettings (withMatchId "977" demoSettings)) demoPlaying));
    [reflexivity|].
  constructor. compute_done.
Defined.

(** ** The stricter loop of the later copy *)

Lemma acceptedIdsStrict_from_batch existingIds events lastEvent accepted x :
  x ∈ (acceptedIdsStrict existingIds events lastEvent accepted).2 →
  x ∈ accepted ∨ ((x ∉ existingIds) ∧ x ∈ ev_id <$> events).
Proof.
  revert lastEvent accepted.
  induction events as [|e events IH]; intros lastEvent accepted; simpl; [auto|].
  rewrite elem_of_cons.
  repeat case_decide; try (intros [?|[? ?]]%IH; by auto).
  intros [Hx|[? ?]]%IH; [|by auto].
  apply elem_of_app in Hx as [?|Hx]; [auto|].
  apply list_elem_of_singleton in Hx as ->. auto.
Qed.

(** X24. In the later copy of the component the poll accepts only events of
    the batch whose id is not the id of an item already in the queue. *)
Theorem acceptedIdsStrict_not_in_queue existingIds events lastEvent x :
  x ∈ (acceptedIdsStrict existingIds events lastEvent []).2 →
  (x ∉ existingIds) ∧ x ∈ ev_id <$> events.
Proof.
  intros [Hx|?]%acceptedIdsStrict_from_batch; [|done].
  by apply elem_of_nil in Hx.
Qed.

Lemma acceptedIdsStrict_not_in_queue_witness :
  ("e3" ∉ ids (queue demoPlaying))
  ∧ "e3" ∈ ev_id <$> [demoEvent "e1" "Corner kick";
                      demoEvent "e3" "Goal - Arsenal"].
Proof.
  apply (acceptedIdsStrict_not_in_queue (ids (queue demoPlaying))
           [demoEvent "e1" "Corner kick"; demoEvent "e3" "Goal - Arsenal"]
           "e2" "e3").
  compute_done.
Defined.

(** ** Selecting a match *)

(** X25. Selecting a fixture makes the text of its id the match id and
    points the live URL at the score site, keeping auto-play as it is; the
    queue, the cursor and the statistics are kept when that text is the
    current match id and cleared otherwise, so selecting a fixture with
    another id text afterwards always clears them. *)
Theorem selectMatch_session (fixtureIdText : string) st :
  let st' := handleSelectMatch (settings st) fixtureIdText st in
  matchId (settings st') = fixtureIdText
  ∧ liveMatchUrl (settings st') = "https://www.aiscore.com/"
  ∧ autoPlay (settings st') = autoPlay (settings st)
  ∧ sessionData st'
    = (if decide (matchId (settings st) = fixtureIdText)
       then sessionData st else ([], "", None))
  ∧ (∀ other : string, other ≠ fixtureIdText →
       sessionData (handleSelectMatch (settings st') other st')
       = ([], "", None)).
Proof.
  simpl. unfold handleSelectMatch, saveSettings. simpl.
  split; [done|]. split; [done|]. split; [done|]. split.
  - destruct (decide (matchId (settings st) = fixtureIdText)) as [Heq|Hne].
    + by rewrite decide_False by (rewrite Heq; tauto).
    + by rewrite decide_True by (by intros Heq).
  - intros other Hne. by rewrite (decide_True (P:=other ≠ fixtureIdText)).
Qed.

(** ** Ordering and grouping the match list *)

Lemma getStatusPriority_range status :
  (0 ≤ getStatusPriority status ≤ 2)%Z.
Proof. unfold getStatusPriority. repeat case_bool_decide; lia. Qed.

(** A match without a valid date compares as [NaN] with every match of the
    same status priority, itself included. *)
Lemma compareMatches_invalid_date sortBy (a b : Match) :
  kickoff a = None →
  getStatusPriority (statusShort a) = getStatusPriority (statusShort b) →
  compareMatches sortBy a b = None ∧ compareMatches sortBy b a = None.
Proof.
  intros Ha Hp. unfold compareMatches, timeDifference. rewrite Ha, Hp.
  destruct sortBy; rewrite ?decide_False by tauto; by destruct (kickoff b).
Qed.

(** X26. On matches whose dates are valid the comparator of the match list
    is consistent, as [sort] needs: every comparison is a number, a match
    compares equal to itself, swapping the arguments swaps the sign, and "not
    after" is transitive.  Under the live ordering a match of a smaller status
    priority (live before scheduled before the rest) comes first whatever the
    dates are, valid or not. *)
Theorem compareMatches_consistent sortBy (a b c : Match) (ta tb tc : Z) :
  kickoff a = Some ta → kickoff b = Some tb → kickoff c = Some tc →
  (∃ rab rba rbc rac : Z,
     compareMatches sortBy a b = Some rab
     ∧ compareMatches sortBy b a = Some rba
     ∧ compareMatches sortBy b c = Some rbc
     ∧ compareMatches sortBy a c = Some rac
     ∧ compareMatches sortBy a a = Some 0%Z
     ∧ rab = (- rba)%Z
     ∧ ((rab ≤ 0)%Z → (rbc ≤ 0)%Z → (rac ≤ 0)%Z))
  ∧ (∀ a' b' : Match,
       (getStatusPriority (statusShort a')
        < getStatusPriority (statusShort b'))%Z →
       ∃ r, compareMatches ByLive a' b' = Some r ∧ (r < 0)%Z).
Proof.
  intros Ha Hb Hc. split.
  - pose proof (getStatusPriority_range (statusShort a)).
    pose proof (getStatusPriority_range (statusShort b)).
    pose proof (getStatusPriority_range (statusShort c)).
    unfold compareMatches, timeDifference. rewrite Ha, Hb, Hc.
    destruct sortBy; repeat case_decide;
      (eexists _, _, _, _; repeat (split; [reflexivity|]);
       split; [f_equal|]; lia).
  - intros a' b' Hlt. unfold compareMatches.
    rewrite decide_True by lia. eexists. split; [done|]. lia.
Qed.

(** A live match, a scheduled one and a finished one with valid dates. *)
Lemma compareMatches_consistent_witness :
  (∃ rab rba rbc rac : Z,
     compareMatches ByLive (mkMatch 1 "2H" (Some 1700000000000%Z) "Serie A" "Italy")
       (mkMatch 2 "NS" (Some 1690000000000%Z) "Serie A" "Italy") = Some rab
     ∧ compareMatches ByLive (mkMatch 2 "NS" (Some 1690000000000%Z) "Serie A" "Italy")
         (mkMatch 1 "2H" (Some 1700000000000%Z) "Serie A" "Italy") = Some rba
     ∧ compareMatches ByLive (mkMatch 2 "NS" (Some 1690000000000%Z) "Serie A" "Italy")
         (mkMatch 3 "FT" (Some 1680000000000%Z) "Serie A" "Italy") = Some rbc
     ∧ compareMatches ByLive (mkMatch 1 "2H" (Some 1700000000000%Z) "Serie A" "Italy")
         (mkMatch 3 "FT" (Some 1680000000000%Z) "Serie A" "Italy") = Some rac
     ∧ compareMatches ByLive (mkMatch 1 "2H" (Some 1700000000000%Z) "Serie A" "Italy")
         (mkMatch 1 "2H" (Some 1700000000000%Z) "Serie A" "Italy") = Some 0%Z
     ∧ rab = (- rba)%Z
     ∧ ((rab ≤ 0)%Z → (rbc ≤ 0)%Z → (rac ≤ 0)%Z))
  ∧ (∀ a' b' : Match,
       (getStatusPriority (statusShort a')
        < getStatusPriority (statusShort b'))%Z →
       ∃ r, compareMatches ByLive a' b' = Some r ∧ (r < 0)%Z).
Proof.
  apply (compareMatches_consistent ByLive
           (mkMatch 1 "2H" (Some 1700000000000%Z) "Serie A" "Italy")
           (mkMatch 2 "NS" (Some 1690000000000%Z) "Serie A" "Italy")
           (mkMatch 3 "FT" (Some 1680000000000%Z) "Serie A" "Italy")
           1700000000000 1690000000000 1680000000000); reflexivity.
Defined.

Lemma groupedMatches_fold (acc : gmap string (list Match)) matches k :
  foldl (λ acc m,
           let k := leagueKey m in
           <[k := default [] (acc !! k) ++ [m]]> acc) acc matches !! k
  = match filter (λ m, leagueKey m = k) matches with
    | [] => acc !! k
    | l => Some (default [] (acc !! k) ++ l)
    end.
Proof.
  revert acc. induction matches as [|m matches IH]; intros acc; [done|].
  simpl. rewrite IH, filter_cons. destruct (decide (leagueKey m = k)) as [->|Hne].
  - rewrite lookup_insert_eq. simpl.
    destruct (filter _ matches); simpl; by rewrite <- ?app_assoc.
  - by rewrite lookup_insert_ne.
Qed.

(** X27. Grouping by league loses and invents nothing: the group stored
    under a key is the list of the matches with that league key, in their
    original order, and a key is present exactly when some match has it. *)
Theorem groupedMatches_spec matches k :
  groupedMatches matches !! k
  = match filter (λ m, leagueKey m = k) matches with
    | [] => None
    | l => Some l
    end.
Proof.
  unfold groupedMatches. rewrite groupedMatches_fold, lookup_empty.
  by destruct (filter _ matches).
Qed.

(** ** Skip at the edges *)

(** X28. Skip always leaves auto-play on and removes at most one item; when
    nothing is playing it leaves the queue as it is. *)
Theorem skip_edge_cases st :
  let st' := exec Skip st in
  autoPlay (settings st') = true
  ∧ length (queue st) ≤ S (length (queue st'))
  ∧ (activeCount (queue st) = 0 → queue st' = queue st).
Proof.
  simpl. unfold handleSkip, handleAudioEnded.
  change (queue (setQueue ?f ?s)) with (f (queue s)).
  rewrite queue_forceAutoPlay.
  pose proof (audioEndedQueue_removes_playing_aux (settings st) (queue st))
    as Hrm.
  split; [|split].
  - unfold forceAutoPlay. simpl. by destruct (autoPlay (settings st)) eqn:E.
  - destruct (findIndex isPlaying (queue st)); [lia|]. rewrite Hrm. lia.
  - intros Hz. destruct (findIndex isPlaying (queue st)) as [i|] eqn:E; [|done].
    apply findIndex_playing_split in E as (x & _ & Hx & _ & Hsplit).
    apply (f_equal activeCount) in Hsplit.
    rewrite activeCount_app, activeCount_cons, decide_True in Hsplit by done.
    lia.
Qed.
